(** * The follow plugin of pixi-viewport: a model of [src/plugins/Follow.ts]

    The plugin moves the centre of a viewport once per frame so that a target
    display object stays at (or within a radius of) a follow point.

    Numbers.  A JavaScript [number] is read here as a real number: the
    development is about the arithmetic the plugin asks for, carried out
    exactly.  The correspondence with the source is

      Math.sqrt  -> [sqrt]      Math.pow(a, 2) -> [a ^ 2]
      Math.cos   -> [cos]       Math.sin       -> [sin]
      Math.min   -> [Rmin]      Math.max       -> [Rmax]
      Math.abs   -> [Rabs]      Math.atan2     -> [Math.atan2] below

    and a number used as a condition ([if (n)], [a || b]) is true exactly when
    it is not zero ([truthy]).  Rounding, infinities and NaN are outside this
    reading.

    The viewport is a collaborator whose code is not part of the plugin: it
    is a record with the centre, the conversion [toWorld] and the list of the
    events sent so far. *)

From Stdlib Require Import Reals Lra Lia List String Bool.
Import ListNotations.

Local Open Scope R_scope.

(** ** Numbers as conditions *)

(** [if (n)] on a number: false for 0, true otherwise. *)
Definition truthy (n : R) : bool :=
  if Req_dec_T n 0 then false else true.

(** [if (n)] on a [number | null]: null is false, a number is as above. *)
Definition truthy_opt (n : option R) : bool :=
  match n with
  | None => false
  | Some r => truthy r
  end.

(** [a > b] as the condition of an [if] or of [?:]. *)
Definition gtb (a b : R) : bool :=
  if Rgt_dec a b then true else false.

Module Math.

(** [Math.atan2(y, x)]: the angle of the point [(x, y)], in the interval
    from [-PI] (excluded) to [PI] (included), and [0] at the origin. *)
Definition atan2 (y x : R) : R :=
  if Rlt_dec 0 x then atan (y / x)
  else if Rlt_dec x 0 then
    (if Rle_dec 0 y then atan (y / x) + PI else atan (y / x) - PI)
  else if Rlt_dec 0 y then PI / 2
  else if Rlt_dec y 0 then - (PI / 2)
  else 0.

End Math.

(** ** Data *)

(** [PointData] of pixi.js: an object with two numbers. *)
Record PointData : Type := mkPoint { x : R; y : R }.

(** The payload of [emit(name, { viewport, type })]; the viewport in the
    payload is the emitting viewport itself and is not repeated here. *)
Record ViewportEvent : Type := mkEvent { name : string; type : string }.

(** Modelled from the spec: the viewport, whose code is outside
    [src/plugins/Follow.ts].  The plugin reads [center], calls [toWorld] on a
    canvas point, calls [moveCenter] and [emit]; [emitted] records the events
    in the order they were sent, oldest first. *)
Record Viewport : Type := mkViewport {
  center : PointData;
  toWorld : PointData -> PointData;
  emitted : list ViewportEvent
}.

(** Modelled from the spec: [moveCenter(x, y)] makes [(x, y)] the centre.
    The viewport is moved as a whole: the world position of every canvas
    point moves by as much as the centre does, so that its offset from the
    centre is the one it was. *)
Definition moveCenter (v : Viewport) (cx cy : R) : Viewport :=
  {| center := mkPoint cx cy;
     toWorld := fun p =>
       mkPoint (x (toWorld v p) + (cx - x (center v)))
               (y (toWorld v p) + (cy - y (center v)));
     emitted := emitted v |}.

(** Modelled from the spec: [emit(name, payload)] notifies the listeners. *)
Definition emit (v : Viewport) (e : ViewportEvent) : Viewport :=
  {| center := center v; toWorld := toWorld v; emitted := emitted v ++ [e] |}.

(** The target display object: only its position is read. *)
Record Container : Type := mkContainer { target_x : R; target_y : R }.

(** [IFollowOptions]: every key may be absent ([None]); [acceleration] and
    [radius], when present, hold a number or [null]. *)
Record IFollowOptions : Type := mkIFollowOptions {
  opt_speed : option R;
  opt_acceleration : option (option R);
  opt_radius : option (option R);
  opt_followPoint : option PointData
}.

(** The options object held by the plugin: every key is present.  The key
    [followPoint] holds a point or, after [setFollowPoint(null)], [null]. *)
Record FollowOptions : Type := mkFollowOptions {
  speed : R;
  acceleration : option R;
  radius : option R;
  followPoint : option PointData
}.

Definition DEFAULT_FOLLOW_OPTIONS : FollowOptions :=
  {| speed := 0;
     acceleration := None;
     radius := Some 0;
     followPoint := Some (mkPoint 0 0) |}.

(** [Object.assign({}, defaults, options)]: a key of [options] that is
    present replaces the default. *)
Definition assign (defaults : FollowOptions) (o : IFollowOptions)
  : FollowOptions :=
  {| speed := match opt_speed o with Some s => s | None => speed defaults end;
     acceleration :=
       match opt_acceleration o with
       | Some a => a
       | None => acceleration defaults
       end;
     radius :=
       match opt_radius o with Some r => r | None => radius defaults end;
     followPoint :=
       match opt_followPoint o with
       | Some p => Some p
       | None => followPoint defaults
       end |}.

(** The plugin object: [parent] and [paused] come from the base class
    [Plugin]. *)
Record Follow : Type := mkFollow {
  parent : Viewport;
  paused : bool;
  target : Container;
  options : FollowOptions;
  velocity : PointData
}.

(** ** Operations *)

(** [new Follow(parent, target, options)]. *)
Definition constructor (p : Viewport) (t : Container) (o : IFollowOptions)
  : Follow :=
  {| parent := p;
     paused := false;
     target := t;
     options := assign DEFAULT_FOLLOW_OPTIONS o;
     velocity := mkPoint 0 0 |}.

Definition set_parent (f : Follow) (p : Viewport) : Follow :=
  {| parent := p; paused := paused f; target := target f;
     options := options f; velocity := velocity f |}.

Definition set_velocity (f : Follow) (v : PointData) : Follow :=
  {| parent := parent f; paused := paused f; target := target f;
     options := options f; velocity := v |}.

(** [this.parent.moveCenter(x, y)] followed by
    [this.parent.emit('moved', { viewport: this.parent, type: 'follow' })]. *)
Definition move_and_emit (f : Follow) (cx cy : R) : Follow :=
  set_parent f
    (emit (moveCenter (parent f) cx cy) (mkEvent "moved" "follow")).

(** Line 88: the follow point in world coordinates. *)
Definition followPointWorld (f : Follow) : PointData :=
  toWorld (parent f)
    (match followPoint (options f) with
     | Some p => p
     | None => mkPoint (x (center (parent f))) (y (center (parent f)))
     end).

(** Lines 91 to 111: the position to bring to the follow point, [(toX, toY)],
    or [None] when the function returns from inside the radius. *)
Definition effective_target (f : Follow) : option (R * R) :=
  let fpw := followPointWorld f in
  if truthy_opt (radius (options f)) then
    let r := match radius (options f) with Some r => r | None => 0 end in
    let distance :=
      sqrt ((target_y (target f) - y fpw) ^ 2
            + (target_x (target f) - x fpw) ^ 2) in
    if gtb distance r then
      let angle :=
        Math.atan2 (target_y (target f) - y fpw)
                   (target_x (target f) - x fpw) in
      Some (target_x (target f) - cos angle * r,
            target_y (target f) - sin angle * r)
    else None
  else Some (target_x (target f), target_y (target f)).

(** Lines 114 to 119: where the centre of the viewport should be. *)
Definition targetCenter (f : Follow) (to : R * R) : R * R :=
  let fpw := followPointWorld f in
  let offsetX := x fpw - x (center (parent f)) in
  let offsetY := y fpw - y (center (parent f)) in
  (fst to - offsetX, snd to - offsetY).

(** Lines 124 to 178: the three ways to move, once the target centre is
    known. *)
Definition follow_motion (f : Follow) (elapsed : R) (tc : R * R) : Follow :=
  let targetCenterX := fst tc in
  let targetCenterY := snd tc in
  let deltaX := targetCenterX - x (center (parent f)) in
  let deltaY := targetCenterY - y (center (parent f)) in
  if truthy deltaX || truthy deltaY then
    if truthy (speed (options f)) then
      if truthy_opt (acceleration (options f)) then
        let a :=
          match acceleration (options f) with Some a => a | None => 0 end in
        let angle := Math.atan2 deltaY deltaX in
        let distance := sqrt (deltaX ^ 2 + deltaY ^ 2) in
        if truthy distance then
          let decelerationDistance :=
            (x (velocity f) ^ 2 + y (velocity f) ^ 2) / (2 * a) in
          let f1 :=
            if gtb distance decelerationDistance then
              set_velocity f
                (mkPoint
                   (Rmin (x (velocity f) + a * elapsed) (speed (options f)))
                   (Rmin (y (velocity f) + a * elapsed) (speed (options f))))
            else
              set_velocity f
                (mkPoint
                   (Rmax (x (velocity f) - a * elapsed) 0)
                   (Rmax (y (velocity f) - a * elapsed) 0)) in
          let changeX := cos angle * x (velocity f1) in
          let changeY := sin angle * y (velocity f1) in
          let x :=
            if gtb (Rabs changeX) (Rabs deltaX) then targetCenterX
            else x (center (parent f1)) + changeX in
          let y :=
            if gtb (Rabs changeY) (Rabs deltaY) then targetCenterY
            else y (center (parent f1)) + changeY in
          move_and_emit f1 x y
        else f
      else
        let angle := Math.atan2 deltaY deltaX in
        let changeX := cos angle * speed (options f) in
        let changeY := sin angle * speed (options f) in
        let x :=
          if gtb (Rabs changeX) (Rabs deltaX) then targetCenterX
          else x (center (parent f)) + changeX in
        let y :=
          if gtb (Rabs changeY) (Rabs deltaY) then targetCenterY
          else y (center (parent f)) + changeY in
        move_and_emit f x y
    else move_and_emit f targetCenterX targetCenterY
  else f.

(** [update(elapsed)]. *)
Definition update (f : Follow) (elapsed : R) : Follow :=
  if paused f then f
  else
    match effective_target f with
    | None => f
    | Some to => follow_motion f elapsed (targetCenter f to)
    end.

(** [setFollowPoint(point)]: [None] is [null]. *)
Definition setFollowPoint (f : Follow) (point : option PointData) : Follow :=
  {| parent := parent f; paused := paused f; target := target f;
     options :=
       {| speed := speed (options f);
          acceleration := acceleration (options f);
          radius := radius (options f);
          followPoint := point |};
     velocity := velocity f |}.

(** [getFollowPoint()]. *)
Definition getFollowPoint (f : Follow) : option PointData :=
  followPoint (options f).

(** ** Runs

    Between two frames the host changes what the plugin reads: the target
    moves, other plugins move or rescale the viewport, the plugin is paused
    or resumed.  A run interleaves such changes with the plugin's own
    operations. *)

Inductive Operation : Type :=
| OpUpdate (elapsed : R)
| OpSetFollowPoint (point : option PointData)
| OpTarget (t : Container)
| OpViewport (v : Viewport)
| OpPaused (b : bool).

Definition step (f : Follow) (op : Operation) : Follow :=
  match op with
  | OpUpdate elapsed => update f elapsed
  | OpSetFollowPoint point => setFollowPoint f point
  | OpTarget t =>
      {| parent := parent f; paused := paused f; target := t;
         options := options f; velocity := velocity f |}
  | OpViewport v => set_parent f v
  | OpPaused b =>
      {| parent := parent f; paused := b; target := target f;
         options := options f; velocity := velocity f |}
  end.

Fixpoint run (f : Follow) (ops : list Operation) : Follow :=
  match ops with
  | [] => f
  | op :: rest => run (step f op) rest
  end.

(** Every frame of the run has a non-negative elapsed time. *)
Definition elapsed_ok (op : Operation) : Prop :=
  match op with
  | OpUpdate elapsed => 0 <= elapsed
  | _ => True
  end.

(** ** Quantities of one frame *)

(** Euclidean distance, written as the source writes it. *)
Definition distance (p q : R * R) : R :=
  sqrt ((snd p - snd q) ^ 2 + (fst p - fst q) ^ 2).

Definition target_position (f : Follow) : R * R :=
  (target_x (target f), target_y (target f)).

Definition follow_position (f : Follow) : R * R :=
  (x (followPointWorld f), y (followPointWorld f)).

(** Line 102: the bearing of the target seen from the follow point. *)
Definition bearing (f : Follow) : R :=
  Math.atan2 (target_y (target f) - y (followPointWorld f))
             (target_x (target f) - x (followPointWorld f)).

(** Lines 121 and 122. *)
Definition deltaX (f : Follow) (tc : R * R) : R :=
  fst tc - x (center (parent f)).

Definition deltaY (f : Follow) (tc : R * R) : R :=
  snd tc - y (center (parent f)).

(** Lines 135 and 136. *)
Definition decelerationDistance (f : Follow) (a : R) : R :=
  (x (velocity f) ^ 2 + y (velocity f) ^ 2) / (2 * a).

(** Lines 138 to 151: the velocity the accelerated branch stores. *)
Definition next_velocity (f : Follow) (elapsed : R) (tc : R * R) (a : R)
  : PointData :=
  if gtb (sqrt (deltaX f tc ^ 2 + deltaY f tc ^ 2))
         (decelerationDistance f a) then
    mkPoint (Rmin (x (velocity f) + a * elapsed) (speed (options f)))
            (Rmin (y (velocity f) + a * elapsed) (speed (options f)))
  else
    mkPoint (Rmax (x (velocity f) - a * elapsed) 0)
            (Rmax (y (velocity f) - a * elapsed) 0).

(** The frame reaches line 138 and takes its first branch: the velocity
    grows. *)
Definition accelerates (f : Follow) : Prop :=
  paused f = false /\
  exists to a,
    effective_target f = Some to /\
    (deltaX f (targetCenter f to) <> 0 \/ deltaY f (targetCenter f to) <> 0) /\
    speed (options f) <> 0 /\
    acceleration (options f) = Some a /\ a <> 0 /\
    sqrt (deltaX f (targetCenter f to) ^ 2 + deltaY f (targetCenter f to) ^ 2)
    > decelerationDistance f a.

(** Every [update] of the run takes the accelerating branch, with a
    non-negative elapsed time. *)
Fixpoint always_accelerates (f : Follow) (ops : list Operation) : Prop :=
  match ops with
  | [] => True
  | op :: rest =>
      match op with
      | OpUpdate elapsed => accelerates f /\ 0 <= elapsed
      | _ => True
      end /\ always_accelerates (step f op) rest
  end.

Definition moved_follow : ViewportEvent := mkEvent "moved" "follow".

(** [v] lies between [a] and [b], ends included, whichever is larger. *)
Definition between (a b v : R) : Prop :=
  (a <= v <= b) \/ (b <= v <= a).

(** The point [r] units away from the follow point (in world coordinates)
    along the bearing of the target. *)
Definition on_bearing (f : Follow) (r : R) : R * R :=
  (x (followPointWorld f) + cos (bearing f) * r,
   y (followPointWorld f) + sin (bearing f) * r).

(** Both components of the velocity lie between [0] and [speed]. *)
Definition velocity_bounded (f : Follow) : Prop :=
  (0 <= x (velocity f) <= speed (options f)) /\
  (0 <= y (velocity f) <= speed (options f)).

(** [sqrt(velocity.x^2 + velocity.y^2)]. *)
Definition velocity_magnitude (f : Follow) : R :=
  sqrt (x (velocity f) ^ 2 + y (velocity f) ^ 2).

(** ** Sample configurations *)

(** A viewport whose canvas and world coordinates coincide, centred at
    [(cx, cy)], with no event sent yet. *)
Definition plain_viewport (cx cy : R) : Viewport :=
  mkViewport (mkPoint cx cy) (fun p => p) [].

(** [{}]: no option given. *)
Definition no_options : IFollowOptions :=
  mkIFollowOptions None None None None.

(** [{ speed, acceleration }]. *)
Definition eased (s a : R) : IFollowOptions :=
  mkIFollowOptions (Some s) (Some (Some a)) None None.

(** [{ speed }]. *)
Definition constant_speed (s : R) : IFollowOptions :=
  mkIFollowOptions (Some s) None None None.

(** [{ radius }]. *)
Definition with_radius (r : R) : IFollowOptions :=
  mkIFollowOptions None None (Some (Some r)) None.

(** ** Quantities of a frame, continued *)

(** A point as a pair, for [distance]. *)
Definition position (p : PointData) : R * R := (x p, y p).

(** Line 131: the distance left to the target centre [tc]. *)
Definition remaining (f : Follow) (tc : R * R) : R :=
  sqrt (deltaX f tc ^ 2 + deltaY f tc ^ 2).

(** The frame has something to do: the plugin is not paused, the radius test
    lets it through, and the position to bring to the follow point is not
    already there. *)
Definition frame_acts (f : Follow) : Prop :=
  paused f = false /\
  exists to, effective_target f = Some to /\ to <> follow_position f.

(** The elapsed time summed over the frames of a run. *)
Fixpoint total_elapsed (ops : list Operation) : R :=
  match ops with
  | [] => 0
  | OpUpdate elapsed :: rest => elapsed + total_elapsed rest
  | _ :: rest => total_elapsed rest
  end.

(** The follow point after a run: the argument of the last
    [setFollowPoint] in it, or the one held before. *)
Fixpoint last_follow_point (held : option PointData) (ops : list Operation)
  : option PointData :=
  match ops with
  | [] => held
  | OpSetFollowPoint point :: rest => last_follow_point point rest
  | _ :: rest => last_follow_point held rest
  end.

(** The number of frames of a run. *)
Fixpoint frames (ops : list Operation) : nat :=
  match ops with
  | [] => O
  | OpUpdate _ :: rest => S (frames rest)
  | _ :: rest => frames rest
  end.

(** The host does not replace the viewport during the run. *)
Definition keeps_viewport (op : Operation) : Prop :=
  match op with
  | OpViewport _ => False
  | _ => True
  end.

(** Lines 152 to 153 and 164 to 165: the change of the frame on each axis,
    [(changeX, changeY)]: the velocity just stored on the accelerated path,
    the speed otherwise, along the angle of the delta. *)
Definition frame_change (f : Follow) (elapsed : R) (tc : R * R) : R * R :=
  let angle := Math.atan2 (deltaY f tc) (deltaX f tc) in
  if truthy_opt (acceleration (options f)) then
    let a :=
      match acceleration (options f) with Some a => a | None => 0 end in
    (cos angle * x (next_velocity f elapsed tc a),
     sin angle * y (next_velocity f elapsed tc a))
  else
    (cos angle * speed (options f), sin angle * speed (options f)).

(** The frame reaches line 124 with a delta other than [(0, 0)]: the plugin
    is not paused, the radius test lets it through, and [deltaX || deltaY]
    holds. *)
Definition frame_moves (f : Follow) : Prop :=
  paused f = false /\
  exists to,
    effective_target f = Some to /\
    (deltaX f (targetCenter f to) <> 0 \/ deltaY f (targetCenter f to) <> 0).

(** * Properties *)

(** ** Conditions *)

Lemma truthy_true (n : R) : n <> 0 -> truthy n = true.
Proof. unfold truthy; destruct (Req_dec_T n 0); congruence. Qed.

Lemma truthy_false (n : R) : n = 0 -> truthy n = false.
Proof. unfold truthy; destruct (Req_dec_T n 0); congruence. Qed.

Lemma truthy_spec (n : R) : truthy n = true <-> n <> 0.
Proof.
  unfold truthy; destruct (Req_dec_T n 0); split; congruence.
Qed.

Lemma gtb_true (a b : R) : a > b -> gtb a b = true.
Proof. unfold gtb; destruct (Rgt_dec a b); [reflexivity | contradiction]. Qed.

Lemma gtb_false (a b : R) : a <= b -> gtb a b = false.
Proof. unfold gtb; destruct (Rgt_dec a b); [lra | reflexivity]. Qed.

Lemma truthy_or (a b : R) :
  truthy a || truthy b = true <-> (a <> 0 \/ b <> 0).
Proof.
  rewrite orb_true_iff, !truthy_spec; tauto.
Qed.

Lemma truthy_or_false (a b : R) :
  a = 0 -> b = 0 -> truthy a || truthy b = false.
Proof. intros -> ->; rewrite truthy_false; reflexivity. Qed.

(** ** Distances and angles *)

Lemma sum_squares_pos (a b : R) : a <> 0 \/ b <> 0 -> 0 < a ^ 2 + b ^ 2.
Proof. intros [H | H]; nra. Qed.

Lemma hypot_pos (a b : R) : a <> 0 \/ b <> 0 -> 0 < sqrt (a ^ 2 + b ^ 2).
Proof. intros H; apply sqrt_lt_R0, sum_squares_pos, H. Qed.

Lemma sqrt_sq_l (a b : R) :
  0 < a -> sqrt (a ^ 2 + b ^ 2) = a * sqrt (1 + Rsqr (b / a)).
Proof.
  intros Ha.
  replace (a ^ 2 + b ^ 2) with (a ^ 2 * (1 + Rsqr (b / a)))
    by (unfold Rsqr; field; lra).
  rewrite sqrt_mult_alt by nra.
  rewrite sqrt_pow2 by lra; reflexivity.
Qed.

Lemma sqrt_one_plus_pos (t : R) : 0 < sqrt (1 + Rsqr t).
Proof. apply sqrt_lt_R0; unfold Rsqr; nra. Qed.

Module MathFacts.

Lemma atan2_pos_x (b a : R) : 0 < a -> Math.atan2 b a = atan (b / a).
Proof.
  intros H; unfold Math.atan2.
  destruct (Rlt_dec 0 a); [reflexivity | lra].
Qed.

Lemma atan2_0_pos (a : R) : 0 < a -> Math.atan2 0 a = 0.
Proof.
  intros H; rewrite atan2_pos_x by assumption.
  replace (0 / a) with 0 by (field; lra); apply atan_0.
Qed.

Lemma cos_atan2 (b a : R) :
  a <> 0 \/ b <> 0 -> cos (Math.atan2 b a) = a / sqrt (a ^ 2 + b ^ 2).
Proof.
  intros H; pose proof (hypot_pos a b H) as Hd.
  unfold Math.atan2.
  destruct (Rlt_dec 0 a) as [Ha | Ha].
  - rewrite cos_atan, sqrt_sq_l by assumption.
    pose proof (sqrt_one_plus_pos (b / a)); field; lra.
  - destruct (Rlt_dec a 0) as [Ha' | Ha'].
    + assert (Hs : sqrt (a ^ 2 + b ^ 2) = - a * sqrt (1 + Rsqr (b / a))).
      { replace (a ^ 2) with ((- a) ^ 2) by ring.
        rewrite sqrt_sq_l by lra.
        replace (b / - a) with (- (b / a)) by (field; lra).
        rewrite <- Rsqr_neg; reflexivity. }
      pose proof (sqrt_one_plus_pos (b / a)).
      destruct (Rle_dec 0 b).
      * rewrite cos_plus, cos_PI, sin_PI, cos_atan, Hs; field; lra.
      * rewrite cos_minus, cos_PI, sin_PI, cos_atan, Hs; field; lra.
    + assert (a = 0) by lra; subst a.
      destruct (Rlt_dec 0 b); [rewrite cos_PI2; field; lra |].
      destruct (Rlt_dec b 0); [rewrite cos_neg, cos_PI2; field; lra |].
      exfalso; destruct H; lra.
Qed.

Lemma sin_atan2 (b a : R) :
  a <> 0 \/ b <> 0 -> sin (Math.atan2 b a) = b / sqrt (a ^ 2 + b ^ 2).
Proof.
  intros H; pose proof (hypot_pos a b H) as Hd.
  unfold Math.atan2.
  destruct (Rlt_dec 0 a) as [Ha | Ha].
  - rewrite sin_atan, sqrt_sq_l by assumption.
    pose proof (sqrt_one_plus_pos (b / a)); field; lra.
  - destruct (Rlt_dec a 0) as [Ha' | Ha'].
    + assert (Hs : sqrt (a ^ 2 + b ^ 2) = - a * sqrt (1 + Rsqr (b / a))).
      { replace (a ^ 2) with ((- a) ^ 2) by ring.
        rewrite sqrt_sq_l by lra.
        replace (b / - a) with (- (b / a)) by (field; lra).
        rewrite <- Rsqr_neg; reflexivity. }
      pose proof (sqrt_one_plus_pos (b / a)).
      destruct (Rle_dec 0 b).
      * rewrite sin_plus, cos_PI, sin_PI, sin_atan, Hs; field; lra.
      * rewrite sin_minus, cos_PI, sin_PI, sin_atan, Hs; field; lra.
    + assert (a = 0) by lra; subst a.
      replace (0 ^ 2 + b ^ 2) with (b ^ 2) by ring.
      destruct (Rlt_dec 0 b).
      { rewrite sin_PI2, sqrt_pow2 by lra; field; lra. }
      destruct (Rlt_dec b 0).
      { rewrite sin_neg, sin_PI2.
        replace (b ^ 2) with ((- b) ^ 2) by ring.
        rewrite sqrt_pow2 by lra; field; lra. }
      exfalso; destruct H; lra.
Qed.

End MathFacts.

(** ** The branches of [update] *)

Section Branches.

Variables (f : Follow) (elapsed : R) (tc : R * R).

Local Abbreviation dX := (deltaX f tc).
Local Abbreviation dY := (deltaY f tc).

Lemma follow_motion_still :
  dX = 0 -> dY = 0 -> follow_motion f elapsed tc = f.
Proof.
  intros HX HY; unfold follow_motion; fold (deltaX f tc) (deltaY f tc).
  rewrite truthy_or_false by assumption; reflexivity.
Qed.

Lemma follow_motion_teleport :
  dX <> 0 \/ dY <> 0 -> speed (options f) = 0 ->
  follow_motion f elapsed tc = move_and_emit f (fst tc) (snd tc).
Proof.
  intros Hd Hs; unfold follow_motion; fold (deltaX f tc) (deltaY f tc).
  apply truthy_or in Hd; rewrite Hd, (truthy_false _ Hs); reflexivity.
Qed.

Lemma follow_motion_constant :
  dX <> 0 \/ dY <> 0 -> speed (options f) <> 0 ->
  truthy_opt (acceleration (options f)) = false ->
  follow_motion f elapsed tc =
  move_and_emit f
    (if gtb (Rabs (cos (Math.atan2 dY dX) * speed (options f))) (Rabs dX)
     then fst tc
     else x (center (parent f)) + cos (Math.atan2 dY dX) * speed (options f))
    (if gtb (Rabs (sin (Math.atan2 dY dX) * speed (options f))) (Rabs dY)
     then snd tc
     else y (center (parent f)) + sin (Math.atan2 dY dX) * speed (options f)).
Proof.
  intros Hd Hs Ha; unfold follow_motion; fold (deltaX f tc) (deltaY f tc).
  apply truthy_or in Hd; rewrite Hd, (truthy_true _ Hs), Ha; reflexivity.
Qed.

Lemma follow_motion_accelerated (a : R) :
  dX <> 0 \/ dY <> 0 -> speed (options f) <> 0 ->
  acceleration (options f) = Some a -> a <> 0 ->
  let v := next_velocity f elapsed tc a in
  follow_motion f elapsed tc =
  move_and_emit (set_velocity f v)
    (if gtb (Rabs (cos (Math.atan2 dY dX) * x v)) (Rabs dX)
     then fst tc
     else x (center (parent f)) + cos (Math.atan2 dY dX) * x v)
    (if gtb (Rabs (sin (Math.atan2 dY dX) * y v)) (Rabs dY)
     then snd tc
     else y (center (parent f)) + sin (Math.atan2 dY dX) * y v).
Proof.
  intros Hd Hs Ha Ha0 v; subst v.
  unfold follow_motion; fold (deltaX f tc) (deltaY f tc).
  pose proof (hypot_pos _ _ Hd) as Hp.
  apply truthy_or in Hd; rewrite Hd, (truthy_true _ Hs), Ha.
  cbv beta iota zeta delta [truthy_opt].
  rewrite (truthy_true _ Ha0), truthy_true by lra.
  unfold next_velocity, decelerationDistance.
  destruct (gtb _ _); reflexivity.
Qed.

Lemma follow_motion_velocity_kept :
  (dX = 0 /\ dY = 0) \/ speed (options f) = 0 \/
  truthy_opt (acceleration (options f)) = false ->
  velocity (follow_motion f elapsed tc) = velocity f.
Proof.
  intros H.
  destruct (Req_dec_T dX 0) as [HX | HX];
    [destruct (Req_dec_T dY 0) as [HY | HY] |].
  1: rewrite follow_motion_still by assumption; reflexivity.
  all: assert (Hd : dX <> 0 \/ dY <> 0) by tauto.
  all: destruct (Req_dec_T (speed (options f)) 0) as [Hs | Hs];
    [rewrite follow_motion_teleport by assumption; reflexivity |].
  all: destruct H as [[? ?] | [? | Ha]]; try contradiction.
  all: rewrite follow_motion_constant by assumption; reflexivity.
Qed.

End Branches.

(** ** Evaluating a frame on given numbers *)

Ltac frame_unfold :=
  repeat match goal with h := _ : Follow |- _ => subst h end;
  cbv beta iota zeta delta
    [update effective_target followPointWorld targetCenter constructor assign
     DEFAULT_FOLLOW_OPTIONS plain_viewport no_options eased constant_speed
     with_radius truthy_opt deltaX deltaY decelerationDistance next_velocity
     target_position follow_position distance bearing on_bearing
     velocity_bounded velocity_magnitude
     move_and_emit set_parent set_velocity moveCenter emit moved_follow
     setFollowPoint getFollowPoint step run
     parent paused target options velocity center toWorld emitted
     speed acceleration radius followPoint x y target_x target_y
     opt_speed opt_acceleration opt_radius opt_followPoint fst snd].

Ltac decide_conditions :=
  repeat first
    [ rewrite truthy_false by lra
    | rewrite truthy_true by lra
    | rewrite gtb_true by lra
    | rewrite gtb_false by lra ].

(** ** The follow point *)

(** C9: [setFollowPoint(p)] followed by [getFollowPoint()] gives [p] back,
    for a point and for [null] alike; after [setFollowPoint(null)] the anchor
    of [update] is the converted centre of the viewport; [setFollowPoint]
    changes nothing but the follow point, and both operations are total. *)
Theorem follow_point_round_trip (f : Follow) (p : option PointData) :
  getFollowPoint (setFollowPoint f p) = p /\
  followPointWorld (setFollowPoint f None)
  = toWorld (parent f) (center (parent f)) /\
  parent (setFollowPoint f p) = parent f /\
  paused (setFollowPoint f p) = paused f /\
  target (setFollowPoint f p) = target f /\
  velocity (setFollowPoint f p) = velocity f /\
  speed (options (setFollowPoint f p)) = speed (options f) /\
  acceleration (options (setFollowPoint f p)) = acceleration (options f) /\
  radius (options (setFollowPoint f p)) = radius (options f).
Proof.
  repeat split.
  unfold followPointWorld; cbn.
  destruct (center (parent f)); reflexivity.
Qed.

(** C7 (what the code does): built without a [followPoint] option, the
    plugin holds the canvas point [(0, 0)] as its follow point, and the anchor
    of [update] is the conversion of that fixed point. *)
Theorem default_follow_point_is_origin
    (p : Viewport) (t : Container)
    (s : option R) (a r : option (option R)) :
  let f := constructor p t (mkIFollowOptions s a r None) in
  getFollowPoint f = Some (mkPoint 0 0) /\
  followPointWorld f = toWorld p (mkPoint 0 0).
Proof. split; reflexivity. Qed.

(** ** The dead zone *)

(** C2: with a radius [r > 0], a target at distance at most [r] from the
    follow point in world coordinates makes [update] return the plugin as it
    was, whatever the elapsed time: centre, events and velocity are those of
    before. *)
Theorem dead_zone_no_op (f : Follow) (elapsed r : R) :
  radius (options f) = Some r ->
  0 < r ->
  distance (target_position f) (follow_position f) <= r ->
  update f elapsed = f.
Proof.
  intros Hr Hpos Hd.
  unfold update; destruct (paused f); [reflexivity |].
  unfold effective_target; rewrite Hr.
  cbv beta iota zeta delta [truthy_opt].
  rewrite truthy_true by lra.
  unfold distance, target_position, follow_position in Hd; cbn [fst snd] in Hd.
  rewrite gtb_false by exact Hd.
  reflexivity.
Qed.

Lemma dead_zone_no_op_witness :
  let f := constructor (plain_viewport 0 0) (mkContainer 30 40)
             (with_radius 50) in
  update f 1 = f.
Proof.
  intros f; apply (dead_zone_no_op f 1 50).
  - reflexivity.
  - lra.
  - frame_unfold.
    replace ((40 - 0) ^ 2 + (30 - 0) ^ 2) with (50 ^ 2) by lra.
    rewrite sqrt_pow2; lra.
Defined.

(** ** Teleport *)

(** C1: with [speed = 0], a frame that computes a delta other than [(0, 0)]
    leaves the centre at the effective target position minus the offset
    (follow point in world coordinates minus the centre before the call) and
    sends one "moved" event of type "follow"; without a radius the effective
    target position is the position of the target. *)
Theorem teleport_reaches_target (f : Follow) (elapsed : R) (to : R * R) :
  paused f = false ->
  effective_target f = Some to ->
  speed (options f) = 0 ->
  deltaX f (targetCenter f to) <> 0 \/ deltaY f (targetCenter f to) <> 0 ->
  let offsetX := x (followPointWorld f) - x (center (parent f)) in
  let offsetY := y (followPointWorld f) - y (center (parent f)) in
  center (parent (update f elapsed))
  = mkPoint (fst to - offsetX) (snd to - offsetY) /\
  emitted (parent (update f elapsed)) = emitted (parent f) ++ [moved_follow] /\
  (truthy_opt (radius (options f)) = false -> to = target_position f).
Proof.
  intros Hp Ht Hs Hd offsetX offsetY.
  unfold update; rewrite Hp, Ht.
  rewrite follow_motion_teleport by assumption.
  repeat split.
  intros Hr; unfold effective_target in Ht; rewrite Hr in Ht.
  injection Ht as <-; reflexivity.
Qed.

Lemma teleport_reaches_target_witness :
  let f := constructor (plain_viewport 0 0) (mkContainer 100 0) no_options in
  center (parent (update f 1)) = mkPoint (100 - (0 - 0)) (0 - (0 - 0)).
Proof.
  intros f.
  refine (proj1 (teleport_reaches_target f 1 (100, 0) _ _ _ _)).
  - reflexivity.
  - frame_unfold; decide_conditions; reflexivity.
  - reflexivity.
  - left; frame_unfold; lra.
Defined.

(** ** The radius *)

Lemma distance_pos_delta (a b : R) :
  0 < sqrt (b ^ 2 + a ^ 2) -> a <> 0 \/ b <> 0.
Proof.
  intros H.
  destruct (Req_dec_T a 0) as [-> | Ha]; [| now left].
  destruct (Req_dec_T b 0) as [-> | Hb]; [| now right].
  replace (0 ^ 2 + 0 ^ 2) with 0 in H by ring.
  rewrite sqrt_0 in H; lra.
Qed.

Lemma sqrt_scaled_unit (c s k : R) :
  c ^ 2 + s ^ 2 = 1 -> 0 <= k -> sqrt ((s * k) ^ 2 + (c * k) ^ 2) = k.
Proof.
  intros H Hk.
  replace ((s * k) ^ 2 + (c * k) ^ 2) with (k ^ 2 * (c ^ 2 + s ^ 2)) by ring.
  rewrite H, Rmult_1_r; apply sqrt_pow2, Hk.
Qed.

Lemma cos_sin_unit (t : R) : cos t ^ 2 + sin t ^ 2 = 1.
Proof.
  pose proof (sin2_cos2 t) as H; unfold Rsqr in H; lra.
Qed.

(** C3 (as amended): with a radius [r > 0] and a target at distance [d > r]
    from the follow point, the effective target position is the position of
    the target moved back by [r] towards the follow point: it lies on the
    bearing of the target at [d - r] from the follow point, exactly [r] away
    from the target. *)
Theorem radius_clamps_towards_follow_point (f : Follow) (r : R) :
  radius (options f) = Some r ->
  0 < r ->
  distance (target_position f) (follow_position f) > r ->
  let d := distance (target_position f) (follow_position f) in
  exists to,
    effective_target f = Some to /\
    to = (target_x (target f) - cos (bearing f) * r,
          target_y (target f) - sin (bearing f) * r) /\
    to = on_bearing f (d - r) /\
    distance (target_position f) to = r /\
    distance to (follow_position f) = d - r.
Proof.
  intros Hr Hpos Hd d.
  unfold distance, target_position, follow_position in Hd, d.
  cbn [fst snd] in Hd, d.
  set (dx := target_x (target f) - x (followPointWorld f)) in *.
  set (dy := target_y (target f) - y (followPointWorld f)) in *.
  assert (Hne : dx <> 0 \/ dy <> 0) by (apply distance_pos_delta; lra).
  assert (Hdd : sqrt (dx ^ 2 + dy ^ 2) = d)
    by (unfold d; f_equal; ring).
  assert (Hdd' : sqrt (dy ^ 2 + dx ^ 2) = d) by reflexivity.
  assert (Hdr : r < d) by exact Hd.
  clearbody d.
  assert (Hc : cos (bearing f) * d = dx).
  { unfold bearing; fold dx dy.
    rewrite (MathFacts.cos_atan2 dy dx Hne), Hdd; field; lra. }
  assert (Hs : sin (bearing f) * d = dy).
  { unfold bearing; fold dx dy.
    rewrite (MathFacts.sin_atan2 dy dx Hne), Hdd; field; lra. }
  eexists; split; [| split; [reflexivity |]].
  { unfold effective_target; rewrite Hr.
    cbv beta iota zeta delta [truthy_opt].
    rewrite truthy_true by lra.
    fold dx dy; rewrite Hdd'.
    rewrite gtb_true by lra.
    reflexivity. }
  pose proof (cos_sin_unit (bearing f)) as Hu.
  repeat split.
  - unfold on_bearing; f_equal; unfold dx, dy in *; lra.
  - unfold distance, target_position; cbn [fst snd].
    replace (target_y (target f) - (target_y (target f) - sin (bearing f) * r))
      with (sin (bearing f) * r) by ring.
    replace (target_x (target f) - (target_x (target f) - cos (bearing f) * r))
      with (cos (bearing f) * r) by ring.
    apply sqrt_scaled_unit; [assumption | lra].
  - unfold distance, follow_position; cbn [fst snd].
    replace (target_y (target f) - sin (bearing f) * r - y (followPointWorld f))
      with (sin (bearing f) * (d - r)) by (unfold dy in Hs; lra).
    replace (target_x (target f) - cos (bearing f) * r - x (followPointWorld f))
      with (cos (bearing f) * (d - r)) by (unfold dx in Hc; lra).
    apply sqrt_scaled_unit; [assumption | lra].
Qed.

Lemma sqrt_due_east (a : R) : 0 <= a -> sqrt (0 ^ 2 + a ^ 2) = a.
Proof.
  intros H; replace (0 ^ 2 + a ^ 2) with (a ^ 2) by ring.
  apply sqrt_pow2, H.
Qed.

Lemma sqrt_due_east' (a : R) : 0 <= a -> sqrt (a ^ 2 + 0 ^ 2) = a.
Proof.
  intros H; replace (a ^ 2 + 0 ^ 2) with (a ^ 2) by ring.
  apply sqrt_pow2, H.
Qed.

(** A target due east of the follow point: the angle is [0]. *)
Ltac due_east :=
  repeat match goal with
         | |- context [Math.atan2 ?b ?a] =>
             replace b with 0 by lra;
             rewrite (MathFacts.atan2_0_pos a) by lra
         end;
  repeat match goal with
         | |- context [sqrt (?b ^ 2 + ?a ^ 2)] =>
             first
               [ replace b with 0 by lra; rewrite (sqrt_due_east a) by lra
               | replace a with 0 by lra; rewrite (sqrt_due_east' b) by lra ]
         end;
  rewrite ?cos_0, ?sin_0.

Lemma radius_clamps_towards_follow_point_witness :
  let f := constructor (plain_viewport 0 0) (mkContainer 100 0)
             (with_radius 50) in
  exists to,
    effective_target f = Some to /\
    to = (target_x (target f) - cos (bearing f) * 50,
          target_y (target f) - sin (bearing f) * 50) /\
    to = on_bearing f (distance (target_position f) (follow_position f) - 50) /\
    distance (target_position f) to = 50 /\
    distance to (follow_position f)
    = distance (target_position f) (follow_position f) - 50.
Proof.
  intros f; apply (radius_clamps_towards_follow_point f 50).
  - reflexivity.
  - lra.
  - frame_unfold; due_east; lra.
Defined.

(** C3 (as stated) fails: with the follow point at the origin, a radius of
    50 and the target at [(150, 0)], the effective target position is
    [(100, 0)], at 100 from the follow point, and not the point [(50, 0)] at
    50 from the follow point along the bearing. *)
Lemma radius_clamp_counterexample :
  let f := constructor (plain_viewport 0 0) (mkContainer 150 0)
             (with_radius 50) in
  radius (options f) = Some 50 /\
  distance (target_position f) (follow_position f) > 50 /\
  effective_target f = Some (100, 0) /\
  on_bearing f 50 = (50, 0) /\
  effective_target f <> Some (on_bearing f 50).
Proof.
  intros f.
  assert (Hd : distance (target_position f) (follow_position f) > 50)
    by (frame_unfold; due_east; lra).
  assert (He : effective_target f = Some (100, 0)).
  { frame_unfold; rewrite truthy_true by lra.
    due_east; rewrite gtb_true by lra.
    do 2 f_equal; lra. }
  assert (Hb : on_bearing f 50 = (50, 0))
    by (frame_unfold; due_east; f_equal; lra).
  repeat split; try assumption.
  rewrite He, Hb; intros H; injection H as H; lra.
Qed.

(** ** The velocity *)

(** C10: a frame that does not reach the accelerated path with a positive
    distance leaves the velocity as it was: a paused frame, a frame that
    returns from inside the radius, a frame whose delta is [(0, 0)], a
    teleport ([speed = 0]) and a frame at constant speed (acceleration [null]
    or [0]). *)
Theorem velocity_kept_outside_accelerated_path (f : Follow) (elapsed : R) :
  paused f = true \/
  effective_target f = None \/
  (exists to, effective_target f = Some to /\
              deltaX f (targetCenter f to) = 0 /\
              deltaY f (targetCenter f to) = 0) \/
  speed (options f) = 0 \/
  truthy_opt (acceleration (options f)) = false ->
  velocity (update f elapsed) = velocity f.
Proof.
  intros H; unfold update.
  destruct (paused f) eqn:Hp; [reflexivity |].
  destruct (effective_target f) as [to |] eqn:Ht; [| reflexivity].
  apply follow_motion_velocity_kept.
  destruct H as [H | [H | [[to' [Hto [HX HY]]] | [H | H]]]];
    try discriminate; auto.
  injection Hto as <-; auto.
Qed.

(** A plugin paused after one accelerated frame. *)
Lemma velocity_kept_outside_accelerated_path_witness :
  let f := step (update (constructor (plain_viewport 0 0) (mkContainer 100 0)
                           (eased 5 1)) 1)
                (OpPaused true) in
  velocity (update f 1) = velocity f.
Proof.
  intros f; apply (velocity_kept_outside_accelerated_path f 1).
  left; reflexivity.
Defined.

(** C8: on the accelerated path (speed positive, acceleration set and so not
    zero) with a delta other than [(0, 0)], the denominator [2 * acceleration]
    of the deceleration distance is not zero, the distance is positive, and
    the frame is not the one that does nothing: it stores the next velocity,
    moves the centre and sends the event. *)
Theorem accelerated_path_divides_by_nonzero
    (f : Follow) (elapsed : R) (to : R * R) (a : R) :
  paused f = false ->
  effective_target f = Some to ->
  0 < speed (options f) ->
  acceleration (options f) = Some a ->
  truthy_opt (acceleration (options f)) = true ->
  deltaX f (targetCenter f to) <> 0 \/ deltaY f (targetCenter f to) <> 0 ->
  let tc := targetCenter f to in
  2 * a <> 0 /\
  decelerationDistance f a * (2 * a)
  = x (velocity f) ^ 2 + y (velocity f) ^ 2 /\
  0 < sqrt (deltaX f tc ^ 2 + deltaY f tc ^ 2) /\
  truthy (sqrt (deltaX f tc ^ 2 + deltaY f tc ^ 2)) = true /\
  velocity (update f elapsed) = next_velocity f elapsed tc a /\
  emitted (parent (update f elapsed)) = emitted (parent f) ++ [moved_follow].
Proof.
  intros Hp Ht Hs Ha Hta Hd tc.
  rewrite Ha in Hta; apply truthy_spec in Hta.
  pose proof (hypot_pos _ _ Hd) as Hpos; fold tc in Hpos.
  assert (H2 : 2 * a <> 0) by lra.
  repeat split; try assumption.
  - unfold decelerationDistance; field; assumption.
  - apply truthy_true; lra.
  - unfold update; rewrite Hp, Ht.
    rewrite (follow_motion_accelerated f elapsed _ a) by (assumption || lra).
    reflexivity.
  - unfold update; rewrite Hp, Ht.
    rewrite (follow_motion_accelerated f elapsed _ a) by (assumption || lra).
    reflexivity.
Qed.

Lemma accelerated_path_divides_by_nonzero_witness :
  let f := constructor (plain_viewport 0 0) (mkContainer 100 0) (eased 5 1) in
  2 * 1 <> 0 /\
  emitted (parent (update f 1)) = emitted (parent f) ++ [moved_follow].
Proof.
  intros f.
  assert (Ht : effective_target f = Some (100, 0))
    by (frame_unfold; decide_conditions; reflexivity).
  assert (Hs : 0 < speed (options f)) by (frame_unfold; lra).
  assert (Hta : truthy_opt (acceleration (options f)) = true)
    by (frame_unfold; decide_conditions; reflexivity).
  assert (Hd : deltaX f (targetCenter f (100, 0)) <> 0 \/
               deltaY f (targetCenter f (100, 0)) <> 0)
    by (left; frame_unfold; lra).
  pose proof (accelerated_path_divides_by_nonzero f 1 (100, 0) 1
                eq_refl Ht Hs eq_refl Hta Hd) as H.
  split; [apply H | apply H].
Defined.

(** *** The options of a run *)

Lemma follow_motion_options (f : Follow) (elapsed : R) (tc : R * R) :
  options (follow_motion f elapsed tc) = options f.
Proof.
  unfold follow_motion.
  repeat match goal with
         | |- context [if ?c then _ else _] => destruct c
         end; reflexivity.
Qed.

Lemma update_options (f : Follow) (elapsed : R) :
  options (update f elapsed) = options f.
Proof.
  unfold update; destruct (paused f); [reflexivity |].
  destruct (effective_target f); [apply follow_motion_options | reflexivity].
Qed.

Lemma step_speed (f : Follow) (op : Operation) :
  speed (options (step f op)) = speed (options f).
Proof.
  destruct op; cbn; try reflexivity; rewrite update_options; reflexivity.
Qed.

Lemma step_acceleration (f : Follow) (op : Operation) :
  acceleration (options (step f op)) = acceleration (options f).
Proof.
  destruct op; cbn; try reflexivity; rewrite update_options; reflexivity.
Qed.

(** *** One frame *)

Lemma next_velocity_bounded (f : Follow) (elapsed : R) (tc : R * R) (a : R) :
  0 <= a -> 0 <= elapsed -> velocity_bounded f ->
  velocity_bounded (set_velocity f (next_velocity f elapsed tc a)).
Proof.
  intros Ha He [[Hx0 Hx1] [Hy0 Hy1]].
  assert (0 <= a * elapsed) by nra.
  unfold velocity_bounded, next_velocity.
  destruct (gtb _ _); cbn [velocity set_velocity options x y].
  - repeat split; try apply Rmin_r; apply Rmin_glb; lra.
  - repeat split; try apply Rmax_r; apply Rmax_lub; lra.
Qed.

Lemma update_velocity_cases (f : Follow) (elapsed : R) :
  velocity (update f elapsed) = velocity f \/
  exists tc a,
    acceleration (options f) = Some a /\ a <> 0 /\
    velocity (update f elapsed) = next_velocity f elapsed tc a.
Proof.
  unfold update.
  destruct (paused f); [now left |].
  destruct (effective_target f) as [to |]; [| now left].
  set (tc := targetCenter f to).
  destruct (Req_dec_T (deltaX f tc) 0) as [HX | HX];
    [destruct (Req_dec_T (deltaY f tc) 0) as [HY | HY] |].
  1: left; apply follow_motion_velocity_kept; auto.
  all: assert (Hd : deltaX f tc <> 0 \/ deltaY f tc <> 0) by tauto.
  all: destruct (Req_dec_T (speed (options f)) 0) as [Hs | Hs];
    [left; apply follow_motion_velocity_kept; auto |].
  all: destruct (acceleration (options f)) as [a |] eqn:Ha;
    [| left; apply follow_motion_velocity_kept; rewrite Ha; auto].
  all: destruct (Req_dec_T a 0) as [Ha0 | Ha0];
    [left; apply follow_motion_velocity_kept; rewrite Ha; cbn;
     rewrite truthy_false by assumption; auto |].
  all: right; exists tc, a; repeat split; try assumption.
  all: rewrite (follow_motion_accelerated f elapsed tc a) by assumption.
  all: reflexivity.
Qed.

Lemma update_velocity_bounded (f : Follow) (elapsed : R) :
  (forall a, acceleration (options f) = Some a -> 0 <= a) ->
  0 <= elapsed -> velocity_bounded f -> velocity_bounded (update f elapsed).
Proof.
  intros Ha He Hb.
  unfold velocity_bounded; rewrite update_options.
  destruct (update_velocity_cases f elapsed) as [-> | [tc [a [Hacc [_ ->]]]]].
  - exact Hb.
  - exact (next_velocity_bounded f elapsed tc a (Ha a Hacc) He Hb).
Qed.

Lemma step_velocity_bounded (f : Follow) (op : Operation) :
  (forall a, acceleration (options f) = Some a -> 0 <= a) ->
  elapsed_ok op -> velocity_bounded f -> velocity_bounded (step f op).
Proof.
  intros Ha He Hb; destruct op; try exact Hb.
  apply update_velocity_bounded; assumption.
Qed.

Lemma run_velocity_bounded (ops : list Operation) :
  forall f,
    (forall a, acceleration (options f) = Some a -> 0 <= a) ->
    Forall elapsed_ok ops -> velocity_bounded f ->
    velocity_bounded (run f ops).
Proof.
  induction ops as [| op rest IH]; intros f Ha Hok Hb; [exact Hb |].
  inversion Hok as [| ? ? Hop Hrest]; subst.
  cbn [run]; apply IH.
  - rewrite step_acceleration; exact Ha.
  - exact Hrest.
  - apply step_velocity_bounded; assumption.
Qed.

Lemma run_speed (ops : list Operation) :
  forall f, speed (options (run f ops)) = speed (options f).
Proof.
  induction ops as [| op rest IH]; intros f; [reflexivity |].
  cbn [run]; rewrite IH; apply step_speed.
Qed.

Lemma run_acceleration (ops : list Operation) :
  forall f, acceleration (options (run f ops)) = acceleration (options f).
Proof.
  induction ops as [| op rest IH]; intros f; [reflexivity |].
  cbn [run]; rewrite IH; apply step_acceleration.
Qed.

(** In one frame each component either grows, by at most what is left up to
    [speed], or decays, by at most what is left down to [0]. *)
Lemma update_grows_or_decays (f : Follow) (elapsed : R) :
  (forall a, acceleration (options f) = Some a -> 0 <= a) ->
  0 <= elapsed -> velocity_bounded f ->
  (x (velocity f) <= x (velocity (update f elapsed)) /\
   y (velocity f) <= y (velocity (update f elapsed))) \/
  (x (velocity (update f elapsed)) <= x (velocity f) /\
   y (velocity (update f elapsed)) <= y (velocity f)).
Proof.
  intros Ha He [[Hx0 Hx1] [Hy0 Hy1]].
  destruct (update_velocity_cases f elapsed) as [-> | [tc [a [Hacc [_ ->]]]]].
  - left; lra.
  - pose proof (Ha a Hacc).
    assert (0 <= a * elapsed) by nra.
    unfold next_velocity; destruct (gtb _ _); cbn [x y].
    + left; split; apply Rmin_glb; lra.
    + right; split; apply Rmax_lub; lra.
Qed.

(** C4: from construction on, with [speed >= 0], [acceleration > 0] and
    frames of non-negative elapsed time, both components of the velocity are
    within [0] and [speed] after every operation; they are [(0, 0)] at
    construction, and a further frame makes both grow or makes both decay,
    within the same bounds. *)
Theorem velocity_within_speed
    (p : Viewport) (t : Container) (o : IFollowOptions)
    (a : R) (ops : list Operation) :
  let f0 := constructor p t o in
  0 <= speed (options f0) ->
  acceleration (options f0) = Some a ->
  0 < a ->
  Forall elapsed_ok ops ->
  velocity f0 = mkPoint 0 0 /\
  velocity_bounded (run f0 ops) /\
  forall elapsed, 0 <= elapsed ->
    let f := run f0 ops in
    velocity_bounded (update f elapsed) /\
    ((x (velocity f) <= x (velocity (update f elapsed)) /\
      y (velocity f) <= y (velocity (update f elapsed))) \/
     (x (velocity (update f elapsed)) <= x (velocity f) /\
      y (velocity (update f elapsed)) <= y (velocity f))).
Proof.
  intros f0 Hs Ha Hpos Hok.
  assert (Hacc : forall f,
             acceleration (options f) = acceleration (options f0) ->
             forall a', acceleration (options f) = Some a' -> 0 <= a').
  { intros f Hf a' Ha'; rewrite Hf, Ha in Ha'; injection Ha' as <-; lra. }
  assert (Hb0 : velocity_bounded f0).
  { unfold velocity_bounded.
    change (velocity f0) with (mkPoint 0 0); cbn [x y]; lra. }
  assert (Hb : velocity_bounded (run f0 ops)).
  { apply run_velocity_bounded; [apply Hacc; reflexivity | assumption ..]. }
  split; [reflexivity |]; split; [exact Hb |].
  intros elapsed He f.
  pose proof (Hacc f (run_acceleration ops f0)) as Hf.
  split.
  - apply update_velocity_bounded; assumption.
  - apply update_grows_or_decays; assumption.
Qed.

Lemma velocity_within_speed_witness :
  let f0 := constructor (plain_viewport 0 0) (mkContainer 100 0) (eased 5 1) in
  velocity_bounded
    (run f0 [OpUpdate 1; OpTarget (mkContainer 3 0); OpUpdate 1]).
Proof.
  intros f0.
  refine (proj1 (proj2 (velocity_within_speed
                          (plain_viewport 0 0) (mkContainer 100 0) (eased 5 1)
                          1 _ _ _ _ _))).
  - frame_unfold; lra.
  - reflexivity.
  - lra.
  - repeat constructor; cbn; lra.
Defined.

(** *** Frames that all accelerate *)

Lemma always_accelerates_elapsed (ops : list Operation) :
  forall f, always_accelerates f ops -> Forall elapsed_ok ops.
Proof.
  induction ops as [| op rest IH]; intros f H; [constructor |].
  destruct H as [Hop Hrest]; constructor; [| exact (IH _ Hrest)].
  destruct op; cbn; try exact I; apply Hop.
Qed.

Lemma magnitude_within_square (u v s : R) :
  0 <= u <= s -> 0 <= v <= s -> sqrt (u ^ 2 + v ^ 2) <= sqrt 2 * s.
Proof.
  intros Hu Hv.
  assert (Hs : 0 <= s) by lra.
  replace (sqrt 2 * s) with (sqrt (2 * s ^ 2))
    by (rewrite sqrt_mult_alt, sqrt_pow2 by lra; reflexivity).
  apply sqrt_le_1_alt; nra.
Qed.

Lemma magnitude_of_diagonal (s : R) : 0 < s -> s < sqrt (s ^ 2 + s ^ 2).
Proof.
  intros Hs.
  assert (H : sqrt (s ^ 2) < sqrt (s ^ 2 + s ^ 2))
    by (apply sqrt_lt_1_alt; nra).
  rewrite sqrt_pow2 in H by lra; exact H.
Qed.

(** C5 (as amended): from construction on, with [speed > 0] and
    [acceleration > 0], along frames that all take the accelerating branch
    with a non-negative elapsed time, each component of the velocity stays at
    most [speed], so that the magnitude [sqrt(velocity.x^2 + velocity.y^2)]
    stays at most [sqrt 2 * speed]. *)
Theorem accelerating_velocity_bound
    (p : Viewport) (t : Container) (o : IFollowOptions)
    (a : R) (ops : list Operation) :
  let f0 := constructor p t o in
  0 < speed (options f0) ->
  acceleration (options f0) = Some a ->
  0 < a ->
  always_accelerates f0 ops ->
  let f := run f0 ops in
  x (velocity f) <= speed (options f0) /\
  y (velocity f) <= speed (options f0) /\
  velocity_magnitude f <= sqrt 2 * speed (options f0).
Proof.
  intros f0 Hs Ha Hpos Hacc f; subst f.
  assert (Hb : velocity_bounded (run f0 ops)).
  { apply run_velocity_bounded.
    - intros a' Ha'; rewrite Ha in Ha'; injection Ha' as <-; lra.
    - exact (always_accelerates_elapsed ops f0 Hacc).
    - unfold velocity_bounded.
      change (velocity f0) with (mkPoint 0 0); cbn [x y]; lra. }
  unfold velocity_bounded in Hb; rewrite run_speed in Hb.
  repeat split; try apply Hb.
  apply magnitude_within_square; apply Hb.
Qed.

Lemma first_frame_accelerates (s a tx : R) :
  0 < s -> 0 < a -> 0 < tx ->
  accelerates (constructor (plain_viewport 0 0) (mkContainer tx 0) (eased s a)).
Proof.
  intros Hs Ha Htx; split; [reflexivity |].
  exists (tx, 0), a.
  split; [frame_unfold; decide_conditions; reflexivity |].
  assert (Hd : tx - (0 - 0) - 0 <> 0) by lra.
  split; [left; exact Hd |].
  split; [frame_unfold; lra |].
  split; [reflexivity |].
  split; [lra |].
  { frame_unfold.
    replace ((0 ^ 2 + 0 ^ 2) / (2 * a)) with 0 by (field; lra).
    apply hypot_pos; left; exact Hd. }
Qed.

Lemma accelerating_velocity_bound_witness :
  let f0 := constructor (plain_viewport 0 0) (mkContainer 100 0) (eased 3 3) in
  velocity_magnitude (run f0 [OpUpdate 1]) <= sqrt 2 * speed (options f0).
Proof.
  intros f0.
  refine (proj2 (proj2 (accelerating_velocity_bound
                          (plain_viewport 0 0) (mkContainer 100 0) (eased 3 3)
                          3 [OpUpdate 1] _ _ _ _))).
  - frame_unfold; lra.
  - reflexivity.
  - lra.
  - split; [| exact I].
    split; [apply first_frame_accelerates; lra | lra].
Defined.

(** C5 (as stated) fails: with [speed = 3] and [acceleration = 3], one
    accelerating frame of elapsed time 1 towards a target 100 away stores the
    velocity [(3, 3)], whose magnitude [sqrt 18] exceeds the speed. *)
Lemma velocity_magnitude_counterexample :
  let f0 := constructor (plain_viewport 0 0) (mkContainer 100 0) (eased 3 3) in
  0 < speed (options f0) /\
  acceleration (options f0) = Some 3 /\
  always_accelerates f0 [OpUpdate 1] /\
  velocity (run f0 [OpUpdate 1]) = mkPoint 3 3 /\
  velocity_magnitude (run f0 [OpUpdate 1]) > speed (options f0).
Proof.
  intros f0.
  assert (Hacc : accelerates f0) by (apply first_frame_accelerates; lra).
  assert (Hv : velocity (run f0 [OpUpdate 1]) = mkPoint 3 3).
  { destruct Hacc as [Hp [to [a [Ht [Hd [Hs [Ha [Ha0 Hgt]]]]]]]].
    cbn [run step]; unfold update; rewrite Hp, Ht.
    rewrite (follow_motion_accelerated f0 1 _ a) by assumption.
    cbn [velocity move_and_emit set_parent set_velocity].
    unfold next_velocity; rewrite gtb_true by exact Hgt.
    injection Ha as <-.
    change (speed (options f0)) with 3.
    change (velocity f0) with (mkPoint 0 0); cbn [x y].
    replace (0 + 3 * 1) with 3 by lra.
    rewrite Rmin_left by lra; reflexivity. }
  split; [frame_unfold; lra |].
  split; [reflexivity |].
  split; [split; [split; [exact Hacc | lra] | exact I] |].
  split; [exact Hv |].
  unfold velocity_magnitude; rewrite Hv; cbn [x y].
  change (speed (options f0)) with 3.
  apply magnitude_of_diagonal; lra.
Qed.

(** ** No overshoot *)

Lemma axis_step (c t ch k : R) :
  ch = (t - c) * k -> 0 <= k ->
  between c t (if gtb (Rabs ch) (Rabs (t - c)) then t else c + ch).
Proof.
  intros -> Hk; unfold between, gtb.
  destruct (Rgt_dec (Rabs ((t - c) * k)) (Rabs (t - c))) as [H | H];
    [lra |].
  rewrite Rabs_mult, (Rabs_right k) in H by lra.
  unfold Rabs in H; destruct (Rcase_abs (t - c)); nra.
Qed.

Lemma next_velocity_nonneg (f : Follow) (elapsed : R) (tc : R * R) (a : R) :
  0 < speed (options f) -> 0 <= a -> 0 <= elapsed ->
  0 <= x (velocity f) -> 0 <= y (velocity f) ->
  0 <= x (next_velocity f elapsed tc a) /\
  0 <= y (next_velocity f elapsed tc a).
Proof.
  intros Hs Ha He Hx Hy.
  assert (0 <= a * elapsed) by nra.
  unfold next_velocity; destruct (gtb _ _); cbn [x y].
  - split; apply Rmin_glb; lra.
  - split; apply Rmax_r.
Qed.

Lemma change_along_bearing (dx dy v : R) :
  dx <> 0 \/ dy <> 0 -> 0 <= v ->
  exists k, 0 <= k /\
            cos (Math.atan2 dy dx) * v = dx * k /\
            sin (Math.atan2 dy dx) * v = dy * k.
Proof.
  intros Hd Hv; pose proof (hypot_pos dx dy Hd) as Hp.
  exists (v / sqrt (dx ^ 2 + dy ^ 2)); split; [| split].
  - apply Rmult_le_pos; [exact Hv |].
    left; apply Rinv_0_lt_compat, Hp.
  - rewrite MathFacts.cos_atan2 by exact Hd; field; lra.
  - rewrite MathFacts.sin_atan2 by exact Hd; field; lra.
Qed.

Lemma axis_snaps (c t ch : R) :
  let v := if gtb (Rabs ch) (Rabs (t - c)) then t else c + ch in
  (Rabs ch > Rabs (t - c) -> v = t) /\
  (Rabs ch <= Rabs (t - c) -> v = c + ch).
Proof.
  intros v; subst v; split; intros H.
  - rewrite gtb_true by exact H; reflexivity.
  - rewrite gtb_false by exact H; reflexivity.
Qed.

(** C6 (as amended): in a frame that computes a target centre, with
    [speed > 0], an acceleration that is not negative when set, a
    non-negative elapsed time and velocity components that are not negative
    before the call, the new centre lies, on each axis, between the centre
    before the call and the target centre, ends included; and in a moving
    branch (delta other than [(0, 0)]) an axis on which the magnitude of the
    change of the frame exceeds that of the delta left is set exactly to the
    target centre, an axis on which it does not is the centre before the call
    plus the change. *)
Theorem no_overshoot_per_axis (f : Follow) (elapsed : R) (to : R * R) :
  paused f = false ->
  effective_target f = Some to ->
  0 < speed (options f) ->
  (forall a, acceleration (options f) = Some a -> 0 <= a) ->
  0 <= elapsed ->
  0 <= x (velocity f) ->
  0 <= y (velocity f) ->
  let tc := targetCenter f to in
  let c := center (parent f) in
  let c' := center (parent (update f elapsed)) in
  let changeX := fst (frame_change f elapsed tc) in
  let changeY := snd (frame_change f elapsed tc) in
  between (x c) (fst tc) (x c') /\
  between (y c) (snd tc) (y c') /\
  (deltaX f tc <> 0 \/ deltaY f tc <> 0 ->
   (Rabs changeX > Rabs (deltaX f tc) -> x c' = fst tc) /\
   (Rabs changeX <= Rabs (deltaX f tc) -> x c' = x c + changeX) /\
   (Rabs changeY > Rabs (deltaY f tc) -> y c' = snd tc) /\
   (Rabs changeY <= Rabs (deltaY f tc) -> y c' = y c + changeY)).
Proof.
  intros Hp Ht Hs Hacc He Hvx Hvy tc c c' changeX changeY.
  subst c c' changeX changeY.
  unfold update; rewrite Hp, Ht; fold tc.
  destruct (Req_dec_T (deltaX f tc) 0) as [HX | HX];
    [destruct (Req_dec_T (deltaY f tc) 0) as [HY | HY] |].
  1: { rewrite follow_motion_still by assumption.
       split; [| split; [| tauto]].
       all: unfold deltaX in HX; unfold deltaY in HY; unfold between; lra. }
  all: assert (Hd : deltaX f tc <> 0 \/ deltaY f tc <> 0) by tauto.
  all: assert (Hs0 : speed (options f) <> 0) by lra.
  all: unfold frame_change.
  all: destruct (acceleration (options f)) as [a |] eqn:Ha.
  all: try destruct (Req_dec_T a 0) as [Ha0 | Ha0].
  all: cbv beta iota zeta delta [truthy_opt].
  all: try rewrite (truthy_false a) by assumption.
  all: try rewrite (truthy_true a) by assumption.
  all: try (rewrite follow_motion_constant
             by (try rewrite Ha; cbn; try rewrite truthy_false; auto);
            destruct (change_along_bearing _ _ (speed (options f)) Hd)
              as [k [Hk [Hc Hsn]]]; [lra |]).
  all: try (rewrite (follow_motion_accelerated f elapsed tc a) by assumption;
            destruct (next_velocity_nonneg f elapsed tc a Hs
                        (Hacc a eq_refl) He Hvx Hvy) as [Hnx Hny];
            destruct (change_along_bearing _ _ _ Hd Hnx) as [k [Hk [Hc _]]];
            destruct (change_along_bearing _ _ _ Hd Hny) as [k' [Hk' [_ Hsn]]]).
  all: cbn [center parent move_and_emit set_parent set_velocity moveCenter
            emit x y fst snd].
  all: unfold deltaX, deltaY in *.
  all: split; [eapply axis_step; eassumption |].
  all: split; [eapply axis_step; eassumption |].
  all: intros _.
  all: split; [apply axis_snaps |].
  all: split; [apply axis_snaps |].
  all: split; apply axis_snaps.
Qed.

Ltac abs_lra :=
  unfold Rabs;
  repeat match goal with
         | |- context [Rcase_abs ?z] => destruct (Rcase_abs z)
         end;
  lra.

Lemma no_overshoot_per_axis_witness :
  let f := constructor (plain_viewport 0 0) (mkContainer 100 0)
             (constant_speed 5) in
  between (x (center (parent f))) (fst (targetCenter f (100, 0)))
          (x (center (parent (update f 1)))) /\
  between (y (center (parent f))) (snd (targetCenter f (100, 0)))
          (y (center (parent (update f 1)))).
Proof.
  intros f.
  refine (let H := no_overshoot_per_axis f 1 (100, 0) _ _ _ _ _ _ _ in
          conj (proj1 H) (proj1 (proj2 H))).
  - reflexivity.
  - frame_unfold; decide_conditions; reflexivity.
  - frame_unfold; lra.
  - intros a H; discriminate H.
  - lra.
  - frame_unfold; lra.
  - frame_unfold; lra.
Defined.

(** C6 (as stated) fails: with [speed = 5] and [acceleration = -1], the
    first frame of elapsed time 1 towards a target centre at [(100, 0)] from
    the centre [(0, 0)] stores the velocity [(-1, -1)] and moves the centre to
    [(-1, 0)], which is not between [0] and [100] on the x axis. *)
Lemma no_overshoot_counterexample :
  let f := constructor (plain_viewport 0 0) (mkContainer 100 0)
             (eased 5 (-1)) in
  0 < speed (options f) /\
  paused f = false /\
  effective_target f = Some (100, 0) /\
  x (center (parent f)) = 0 /\
  fst (targetCenter f (100, 0)) = 100 /\
  center (parent (update f 1)) = mkPoint (-1) 0 /\
  ~ between (x (center (parent f))) (fst (targetCenter f (100, 0)))
            (x (center (parent (update f 1)))).
Proof.
  intros f.
  assert (Ht : effective_target f = Some (100, 0))
    by (frame_unfold; decide_conditions; reflexivity).
  assert (Htc : fst (targetCenter f (100, 0)) = 100) by (frame_unfold; lra).
  assert (Hc : center (parent (update f 1)) = mkPoint (-1) 0).
  { unfold update; rewrite Ht; cbn [paused f constructor].
    rewrite (follow_motion_accelerated f 1 _ (-1));
      [| left; frame_unfold; lra | frame_unfold; lra | reflexivity | lra].
    frame_unfold; due_east.
    replace ((0 ^ 2 + 0 ^ 2) / (2 * -1)) with 0 by (field; lra).
    rewrite (gtb_true (100 - (0 - 0) - 0) 0) by lra.
    cbv beta iota.
    replace (0 + -1 * 1) with (-1) by lra.
    rewrite Rmin_left by lra.
    rewrite (gtb_false (Rabs (1 * -1))) by abs_lra.
    rewrite (gtb_false (Rabs (0 * -1))) by abs_lra.
    f_equal; lra. }
  split; [frame_unfold; lra |].
  split; [reflexivity |].
  split; [exact Ht |].
  split; [reflexivity |].
  split; [exact Htc |].
  split; [exact Hc |].
  rewrite Hc, Htc; cbn [x center parent f constructor plain_viewport].
  unfold between; lra.
Qed.

(** ** The follow point left out *)

(** C7 (what the code does, on given numbers): a plugin built with no option
    on a viewport centred at [(300, 200)], canvas and world coordinates
    coinciding, following a target that sits at that centre, reports the
    follow point [(0, 0)] and teleports the centre to [(600, 400)]: the anchor
    is the canvas origin, not the centre of the viewport, for which the frame
    would have nothing to move. *)
Theorem default_follow_point_moves_centred_target :
  let f := constructor (plain_viewport 300 200) (mkContainer 300 200)
             no_options in
  getFollowPoint f = Some (mkPoint 0 0) /\
  followPointWorld f = mkPoint 0 0 /\
  center (parent (update f 1)) = mkPoint 600 400 /\
  center (parent (update (setFollowPoint f None) 1)) = mkPoint 300 200.
Proof.
  intros f.
  split; [reflexivity |]; split; [reflexivity |]; split.
  - unfold update; cbn [paused f constructor].
    assert (Ht : effective_target f = Some (300, 200))
      by (frame_unfold; decide_conditions; reflexivity).
    rewrite Ht, follow_motion_teleport;
      [| left; frame_unfold; lra | reflexivity].
    frame_unfold; f_equal; lra.
  - unfold update; cbn [paused f constructor setFollowPoint].
    assert (Ht : effective_target (setFollowPoint f None) = Some (300, 200))
      by (frame_unfold; decide_conditions; reflexivity).
    rewrite Ht, follow_motion_still; [reflexivity | |]; frame_unfold; lra.
Qed.

(** ** Two frames on given numbers

    Centre [(0, 0)], follow point at the canvas origin, canvas and world
    coordinates coinciding, target at [(100, 0)]. *)

(** With a radius of 50 and [speed = 0] the centre moves to [(50, 0)]: the
    target ends 50 away from the follow point. *)
Example frame_with_radius :
  let f := constructor (plain_viewport 0 0) (mkContainer 100 0)
             (with_radius 50) in
  center (parent (update f 1)) = mkPoint 50 0.
Proof.
  intros f.
  assert (Ht : effective_target f = Some (50, 0)).
  { frame_unfold; rewrite truthy_true by lra.
    due_east; rewrite gtb_true by lra.
    do 2 f_equal; lra. }
  unfold update; rewrite Ht; cbn [paused f constructor].
  rewrite follow_motion_teleport; [| left; frame_unfold; lra | reflexivity].
  frame_unfold; f_equal; lra.
Qed.

(** With [speed = 5] and no acceleration the centre moves to [(5, 0)]. *)
Example frame_at_constant_speed :
  let f := constructor (plain_viewport 0 0) (mkContainer 100 0)
             (constant_speed 5) in
  center (parent (update f 1)) = mkPoint 5 0.
Proof.
  intros f.
  assert (Ht : effective_target f = Some (100, 0))
    by (frame_unfold; decide_conditions; reflexivity).
  unfold update; rewrite Ht; cbn [paused f constructor].
  rewrite follow_motion_constant;
    [| left; frame_unfold; lra | frame_unfold; lra | reflexivity].
  frame_unfold; due_east.
  rewrite (gtb_false (Rabs (1 * 5))) by abs_lra.
  rewrite (gtb_false (Rabs (0 * 5))) by abs_lra.
  f_equal; lra.
Qed.

(** * Further properties of [update] *)

(** ** What a frame needs in order to act *)

(** The offset between follow point and centre cancels: the delta of lines
    121 and 122 is the effective target minus the follow point in world
    coordinates. *)
Lemma delta_cancels (f : Follow) (to : R * R) :
  deltaX f (targetCenter f to) = fst to - x (followPointWorld f) /\
  deltaY f (targetCenter f to) = snd to - y (followPointWorld f).
Proof. unfold deltaX, deltaY, targetCenter; cbn [fst snd]; lra. Qed.

Lemma off_follow_point (f : Follow) (to : R * R) :
  to <> follow_position f <->
  (deltaX f (targetCenter f to) <> 0 \/ deltaY f (targetCenter f to) <> 0).
Proof.
  destruct (delta_cancels f to) as [-> ->].
  unfold follow_position; destruct to as [tx ty]; cbn [fst snd].
  split.
  - intros H.
    destruct (Req_dec_T (tx - x (followPointWorld f)) 0) as [HX | HX];
      [| now left].
    destruct (Req_dec_T (ty - y (followPointWorld f)) 0) as [HY | HY];
      [| now right].
    exfalso; apply H; f_equal; lra.
  - intros H E; injection E as -> ->; lra.
Qed.

Lemma follow_motion_emits (f : Follow) (elapsed : R) (tc : R * R) :
  deltaX f tc <> 0 \/ deltaY f tc <> 0 ->
  emitted (parent (follow_motion f elapsed tc))
  = emitted (parent f) ++ [moved_follow].
Proof.
  intros Hd.
  destruct (Req_dec_T (speed (options f)) 0) as [Hs | Hs];
    [rewrite follow_motion_teleport by assumption; reflexivity |].
  destruct (acceleration (options f)) as [a |] eqn:Ha;
    [destruct (Req_dec_T a 0) as [Ha0 | Ha0] |].
  - rewrite follow_motion_constant; try assumption; [reflexivity |].
    rewrite Ha; cbn; apply truthy_false, Ha0.
  - rewrite (follow_motion_accelerated f elapsed tc a) by assumption.
    reflexivity.
  - rewrite follow_motion_constant; try assumption; [reflexivity |].
    rewrite Ha; reflexivity.
Qed.

Lemma acting_frame_emits (f : Follow) (elapsed : R) :
  frame_acts f ->
  emitted (parent (update f elapsed)) = emitted (parent f) ++ [moved_follow].
Proof.
  unfold frame_acts, update.
  intros [Hp [to [Ht Hoff]]]; rewrite Hp, Ht.
  apply follow_motion_emits, off_follow_point, Hoff.
Qed.

(** X1: a frame sends its event exactly when it reaches line 124 with a
    delta other than [(0, 0)] (the plugin is not paused and the radius test
    lets it through): then it sends one "moved" event of type "follow",
    whatever the speed and the acceleration, the test on the distance of the
    accelerated path included; otherwise it returns the plugin as it was. *)
Theorem update_acts_iff (f : Follow) (elapsed : R) :
  (frame_moves f ->
   emitted (parent (update f elapsed)) = emitted (parent f) ++ [moved_follow])
  /\
  (~ frame_moves f -> update f elapsed = f).
Proof.
  unfold frame_moves, update; split.
  - intros [Hp [to [Ht Hd]]]; rewrite Hp, Ht.
    apply follow_motion_emits, Hd.
  - intros H.
    destruct (paused f); [reflexivity |].
    destruct (effective_target f) as [to |]; [| reflexivity].
    destruct (Req_dec_T (deltaX f (targetCenter f to)) 0) as [HX | HX];
      [destruct (Req_dec_T (deltaY f (targetCenter f to)) 0) as [HY | HY] |].
    + apply follow_motion_still; assumption.
    + exfalso; apply H; split; [reflexivity |].
      exists to; split; [reflexivity | now right].
    + exfalso; apply H; split; [reflexivity |].
      exists to; split; [reflexivity | now left].
Qed.

Lemma update_acts_iff_witness :
  let f := constructor (plain_viewport 0 0) (mkContainer 100 0)
             (constant_speed 5) in
  let g := constructor (plain_viewport 0 0) (mkContainer 0 0)
             (constant_speed 5) in
  emitted (parent (update f 1)) = emitted (parent f) ++ [moved_follow] /\
  update g 1 = g.
Proof.
  intros f g; split.
  - apply (proj1 (update_acts_iff f 1)).
    split; [reflexivity |].
    exists (100, 0); split.
    + frame_unfold; decide_conditions; reflexivity.
    + left; frame_unfold; lra.
  - apply (proj2 (update_acts_iff g 1)).
    intros [_ [to [Ht Hd]]].
    assert (Hg : effective_target g = Some (0, 0))
      by (frame_unfold; decide_conditions; reflexivity).
    rewrite Hg in Ht; injection Ht as <-.
    revert Hd; frame_unfold; lra.
Defined.

(** ** What a frame leaves alone *)

Lemma follow_motion_frame (f : Follow) (elapsed : R) (tc : R * R) :
  paused (follow_motion f elapsed tc) = paused f /\
  target (follow_motion f elapsed tc) = target f /\
  (follow_motion f elapsed tc = f \/
   emitted (parent (follow_motion f elapsed tc))
   = emitted (parent f) ++ [moved_follow]).
Proof.
  unfold follow_motion.
  repeat match goal with
         | |- context [if ?c then _ else _] => destruct c
         end; repeat split; auto.
Qed.

Lemma update_acts_or_not (f : Follow) (elapsed : R) :
  emitted (parent (update f elapsed)) = emitted (parent f) \/
  emitted (parent (update f elapsed)) = emitted (parent f) ++ [moved_follow].
Proof.
  unfold update; destruct (paused f); [now left |].
  destruct (effective_target f) as [to |]; [| now left].
  destruct (follow_motion_frame f elapsed (targetCenter f to))
    as [_ [_ [-> | H]]]; [now left | now right].
Qed.

(** X2: a frame changes neither the pause flag, nor the target, nor the
    options; the events sent before are kept, in order, and at most one is
    added, which is "moved" of type "follow"; a frame that adds none leaves
    the whole plugin, centre and velocity included, as it was. *)
Theorem update_frame (f : Follow) (elapsed : R) :
  paused (update f elapsed) = paused f /\
  target (update f elapsed) = target f /\
  options (update f elapsed) = options f /\
  (update f elapsed = f \/
   emitted (parent (update f elapsed)) = emitted (parent f) ++ [moved_follow]).
Proof.
  split; [| split; [| split; [apply update_options |]]].
  all: unfold update; destruct (paused f) eqn:Hp; auto.
  all: destruct (effective_target f) as [to |]; auto.
  all: pose proof (follow_motion_frame f elapsed (targetCenter f to)) as H.
  all: rewrite Hp in H; tauto.
Qed.

(** ** Frames without acceleration *)

(** X3: with [speed = 0], or with an acceleration that is [null] or [0], the
    elapsed time plays no part: two frames from the same state end in the
    same state whatever their elapsed times. *)
Theorem elapsed_ignored_without_acceleration (f : Follow) (e1 e2 : R) :
  speed (options f) = 0 \/ truthy_opt (acceleration (options f)) = false ->
  update f e1 = update f e2.
Proof.
  intros H; unfold update.
  destruct (paused f); [reflexivity |].
  destruct (effective_target f) as [to |]; [| reflexivity].
  set (tc := targetCenter f to).
  destruct (Req_dec_T (deltaX f tc) 0) as [HX | HX];
    [destruct (Req_dec_T (deltaY f tc) 0) as [HY | HY] |].
  1: rewrite !follow_motion_still by assumption; reflexivity.
  all: assert (Hd : deltaX f tc <> 0 \/ deltaY f tc <> 0) by tauto.
  all: destruct (Req_dec_T (speed (options f)) 0) as [Hs | Hs];
    [rewrite !follow_motion_teleport by assumption; reflexivity |].
  all: destruct H as [H | H]; [contradiction |].
  all: rewrite !follow_motion_constant by assumption; reflexivity.
Qed.

Lemma elapsed_ignored_without_acceleration_witness :
  let f := constructor (plain_viewport 0 0) (mkContainer 100 0)
             (constant_speed 5) in
  update f 1 = update f 16.
Proof.
  intros f; apply (elapsed_ignored_without_acceleration f 1 16).
  right; reflexivity.
Defined.

Lemma teleport_displacement
    (f : Follow) (elapsed : R) (to : R * R) :
  paused f = false ->
  effective_target f = Some to ->
  speed (options f) = 0 ->
  center (parent (update f elapsed))
  = mkPoint (x (center (parent f)) + (fst to - x (followPointWorld f)))
            (y (center (parent f)) + (snd to - y (followPointWorld f))).
Proof.
  intros Hp Ht Hs; unfold update; rewrite Hp, Ht.
  destruct (delta_cancels f to) as [EX EY].
  destruct (Req_dec_T (deltaX f (targetCenter f to)) 0) as [HX | HX];
    [destruct (Req_dec_T (deltaY f (targetCenter f to)) 0) as [HY | HY] |].
  1: { rewrite follow_motion_still by assumption.
       destruct (center (parent f)) as [cx cy]; cbn [x y] in *.
       f_equal; lra. }
  all: rewrite follow_motion_teleport by tauto.
  all: unfold targetCenter; cbn; f_equal; lra.
Qed.



(** ** Constant speed *)

Lemma axis_arrives (c t ch k : R) :
  ch = (t - c) * k -> 1 <= k ->
  (if gtb (Rabs ch) (Rabs (t - c)) then t else c + ch) = t.
Proof.
  intros -> Hk; unfold gtb.
  destruct (Rgt_dec (Rabs ((t - c) * k)) (Rabs (t - c))) as [H | H];
    [reflexivity |].
  rewrite Rabs_mult, (Rabs_right k) in H by lra.
  unfold Rabs in H; destruct (Rcase_abs (t - c)); nra.
Qed.

Lemma axis_advances (c t ch k : R) :
  ch = (t - c) * k -> 0 <= k <= 1 ->
  (if gtb (Rabs ch) (Rabs (t - c)) then t else c + ch) = c + ch.
Proof.
  intros -> Hk; rewrite gtb_false; [reflexivity |].
  rewrite Rabs_mult, (Rabs_right k) by lra.
  pose proof (Rabs_pos (t - c)); nra.
Qed.

Lemma constant_speed_frame (f : Follow) (elapsed : R) (to : R * R) :
  paused f = false ->
  effective_target f = Some to ->
  0 < speed (options f) ->
  truthy_opt (acceleration (options f)) = false ->
  to <> follow_position f ->
  let tc := targetCenter f to in
  0 < remaining f tc /\
  exists chX chY,
    chX = deltaX f tc * (speed (options f) / remaining f tc) /\
    chY = deltaY f tc * (speed (options f) / remaining f tc) /\
    center (parent (update f elapsed))
    = mkPoint
        (if gtb (Rabs chX) (Rabs (deltaX f tc)) then fst tc
         else x (center (parent f)) + chX)
        (if gtb (Rabs chY) (Rabs (deltaY f tc)) then snd tc
         else y (center (parent f)) + chY).
Proof.
  intros Hp Ht Hs Ha Hoff tc.
  apply off_follow_point in Hoff; fold tc in Hoff.
  pose proof (hypot_pos _ _ Hoff) as Hpos.
  split; [exact Hpos |].
  unfold update; rewrite Hp, Ht; fold tc.
  rewrite follow_motion_constant by (assumption || lra).
  do 2 eexists; split; [| split]; [| | reflexivity].
  - rewrite MathFacts.cos_atan2 by exact Hoff.
    unfold remaining; field; lra.
  - rewrite MathFacts.sin_atan2 by exact Hoff.
    unfold remaining; field; lra.
Qed.

(** X5: at constant speed ([speed > 0], acceleration [null] or [0]), a frame
    whose remaining distance to the target centre is at most [speed] puts the
    centre exactly on the target centre. *)
Theorem constant_speed_arrives (f : Follow) (elapsed : R) (to : R * R) :
  paused f = false ->
  effective_target f = Some to ->
  0 < speed (options f) ->
  truthy_opt (acceleration (options f)) = false ->
  remaining f (targetCenter f to) <= speed (options f) ->
  center (parent (update f elapsed))
  = mkPoint (fst (targetCenter f to)) (snd (targetCenter f to)).
Proof.
  intros Hp Ht Hs Ha Hr.
  destruct (Req_dec_T (deltaX f (targetCenter f to)) 0) as [HX | HX];
    [destruct (Req_dec_T (deltaY f (targetCenter f to)) 0) as [HY | HY] |].
  1: { unfold update; rewrite Hp, Ht, follow_motion_still by assumption.
       unfold deltaX in HX; unfold deltaY in HY.
       destruct (center (parent f)) as [cx cy]; cbn [x y] in *.
       f_equal; lra. }
  all: assert (Hoff : to <> follow_position f)
    by (apply off_follow_point; tauto).
  all: destruct (constant_speed_frame f elapsed to Hp Ht Hs Ha Hoff)
    as [Hpos [chX [chY [EX [EY ->]]]]].
  all: assert (Hk : 1 <= speed (options f) / remaining f (targetCenter f to))
    by (apply (Rmult_le_reg_r (remaining f (targetCenter f to)));
        [exact Hpos | field_simplify; lra]).
  all: f_equal; eapply axis_arrives; eassumption.
Qed.

Lemma constant_speed_arrives_witness :
  let f := constructor (plain_viewport 0 0) (mkContainer 3 0)
             (constant_speed 5) in
  center (parent (update f 1))
  = mkPoint (fst (targetCenter f (3, 0))) (snd (targetCenter f (3, 0))).
Proof.
  intros f; apply (constant_speed_arrives f 1 (3, 0)).
  - reflexivity.
  - frame_unfold; decide_conditions; reflexivity.
  - frame_unfold; lra.
  - reflexivity.
  - unfold remaining; frame_unfold; due_east; lra.
Defined.

(** X6: at constant speed, a frame whose remaining distance [d] to the
    target centre exceeds [speed] moves the centre by [speed] along the
    straight line to the target centre, and leaves [d - speed] to go. *)
Theorem constant_speed_advances (f : Follow) (elapsed : R) (to : R * R) :
  paused f = false ->
  effective_target f = Some to ->
  0 < speed (options f) ->
  truthy_opt (acceleration (options f)) = false ->
  speed (options f) < remaining f (targetCenter f to) ->
  let tc := targetCenter f to in
  let s := speed (options f) in
  let c' := center (parent (update f elapsed)) in
  c' = mkPoint (x (center (parent f)) + deltaX f tc * (s / remaining f tc))
               (y (center (parent f)) + deltaY f tc * (s / remaining f tc)) /\
  distance (position c') (position (center (parent f))) = s /\
  distance tc (position c') = remaining f tc - s.
Proof.
  intros Hp Ht Hs Ha Hr tc s c'.
  assert (Hs' : 0 < s) by exact Hs.
  assert (Hr' : s < remaining f tc) by exact Hr.
  assert (Hoff : to <> follow_position f).
  { apply off_follow_point; fold tc.
    destruct (Req_dec_T (deltaX f tc) 0) as [HX | HX]; [| now left].
    destruct (Req_dec_T (deltaY f tc) 0) as [HY | HY]; [| now right].
    exfalso; unfold remaining in Hr; fold tc in Hr; rewrite HX, HY in Hr.
    replace (0 ^ 2 + 0 ^ 2) with 0 in Hr by ring.
    rewrite sqrt_0 in Hr; lra. }
  destruct (constant_speed_frame f elapsed to Hp Ht Hs Ha Hoff)
    as [Hpos [chX [chY [EX [EY Hc]]]]].
  fold tc s in Hpos, EX, EY, Hc; fold c' in Hc.
  clear Hs Hr; clearbody s.
  set (d := remaining f tc) in *.
  assert (Hk : 0 <= s / d <= 1).
  { split.
    - apply Rmult_le_pos; [lra | left; apply Rinv_0_lt_compat, Hpos].
    - apply (Rmult_le_reg_r d); [exact Hpos | field_simplify; lra]. }
  assert (Hd2 : deltaX f tc ^ 2 + deltaY f tc ^ 2 = d ^ 2)
    by (unfold d, remaining; rewrite pow2_sqrt; [reflexivity | nra]).
  change (deltaX f tc) with (fst tc - x (center (parent f))) in Hc.
  change (deltaY f tc) with (snd tc - y (center (parent f))) in Hc.
  rewrite (axis_advances _ _ chX (s / d)) in Hc by assumption.
  rewrite (axis_advances _ _ chY (s / d)) in Hc by assumption.
  rewrite EX, EY in Hc.
  split; [exact Hc |].
  rewrite Hc; unfold distance, position; cbn [fst snd x y].
  split.
  - replace ((y (center (parent f)) + deltaY f tc * (s / d)
              - y (center (parent f))) ^ 2
             + (x (center (parent f)) + deltaX f tc * (s / d)
                - x (center (parent f))) ^ 2)
      with ((s / d) ^ 2 * (deltaX f tc ^ 2 + deltaY f tc ^ 2)) by ring.
    rewrite Hd2.
    replace ((s / d) ^ 2 * d ^ 2) with (s ^ 2) by (field; lra).
    apply sqrt_pow2; lra.
  - unfold deltaX, deltaY in *.
    replace ((snd tc - (y (center (parent f))
                        + (snd tc - y (center (parent f))) * (s / d))) ^ 2
             + (fst tc - (x (center (parent f))
                          + (fst tc - x (center (parent f))) * (s / d))) ^ 2)
      with ((1 - s / d) ^ 2
            * ((fst tc - x (center (parent f))) ^ 2
               + (snd tc - y (center (parent f))) ^ 2)) by ring.
    rewrite Hd2.
    replace ((1 - s / d) ^ 2 * d ^ 2) with ((d - s) ^ 2) by (field; lra).
    apply sqrt_pow2; lra.
Qed.

Lemma constant_speed_advances_witness :
  let f := constructor (plain_viewport 0 0) (mkContainer 100 0)
             (constant_speed 5) in
  distance (position (center (parent (update f 1))))
           (position (center (parent f))) = 5.
Proof.
  intros f.
  refine (proj1 (proj2 (constant_speed_advances f 1 (100, 0) _ _ _ _ _))).
  - reflexivity.
  - frame_unfold; decide_conditions; reflexivity.
  - frame_unfold; lra.
  - reflexivity.
  - unfold remaining; frame_unfold; due_east; lra.
Defined.

(** ** How far a frame moves the centre *)

Lemma axis_within_change (c t ch : R) :
  ((if gtb (Rabs ch) (Rabs (t - c)) then t else c + ch) - c) ^ 2 <= ch ^ 2.
Proof.
  unfold gtb.
  destruct (Rgt_dec (Rabs ch) (Rabs (t - c))) as [H | H].
  - unfold Rabs in H.
    destruct (Rcase_abs ch), (Rcase_abs (t - c)); nra.
  - replace (c + ch - c) with ch by ring; lra.
Qed.

Lemma displacement_bound (co si vx vy s DX DY : R) :
  co ^ 2 + si ^ 2 = 1 ->
  0 <= vx <= s -> 0 <= vy <= s ->
  DX ^ 2 <= (co * vx) ^ 2 -> DY ^ 2 <= (si * vy) ^ 2 ->
  sqrt (DY ^ 2 + DX ^ 2) <= s.
Proof.
  intros Hu Hx Hy HX HY.
  assert (Hs : 0 <= s) by lra.
  rewrite <- (sqrt_pow2 s Hs).
  apply sqrt_le_1_alt.
  assert (vx ^ 2 <= s ^ 2) by nra.
  assert (vy ^ 2 <= s ^ 2) by nra.
  assert ((co * vx) ^ 2 <= co ^ 2 * s ^ 2) by nra.
  assert ((si * vy) ^ 2 <= si ^ 2 * s ^ 2) by nra.
  nra.
Qed.

Lemma distance_same (p : R * R) : distance p p = 0.
Proof.
  unfold distance.
  replace ((snd p - snd p) ^ 2 + (fst p - fst p) ^ 2) with 0 by ring.
  apply sqrt_0.
Qed.

(** X7: with [speed > 0], an acceleration that is not negative when set, a
    non-negative elapsed time and a velocity within [0] and [speed], a frame
    moves the centre by at most [speed], in Euclidean distance, whichever
    branch it takes. *)
Theorem displacement_at_most_speed (f : Follow) (elapsed : R) :
  0 < speed (options f) ->
  (forall a, acceleration (options f) = Some a -> 0 <= a) ->
  0 <= elapsed ->
  velocity_bounded f ->
  distance (position (center (parent (update f elapsed))))
           (position (center (parent f)))
  <= speed (options f).
Proof.
  intros Hs Hacc He Hb.
  assert (Hstill : distance (position (center (parent f)))
                            (position (center (parent f)))
                   <= speed (options f))
    by (rewrite distance_same; lra).
  unfold update.
  destruct (paused f); [exact Hstill |].
  destruct (effective_target f) as [to |]; [| exact Hstill].
  set (tc := targetCenter f to).
  destruct (Req_dec_T (deltaX f tc) 0) as [HX | HX];
    [destruct (Req_dec_T (deltaY f tc) 0) as [HY | HY] |].
  1: rewrite follow_motion_still by assumption; exact Hstill.
  all: assert (Hd : deltaX f tc <> 0 \/ deltaY f tc <> 0) by tauto.
  all: assert (Hs0 : speed (options f) <> 0) by lra.
  all: pose proof (cos_sin_unit (Math.atan2 (deltaY f tc) (deltaX f tc)))
    as Hu.
  all: destruct (acceleration (options f)) as [a |] eqn:Ha.
  all: try destruct (Req_dec_T a 0) as [Ha0 | Ha0].
  all: try (rewrite follow_motion_constant
             by (try rewrite Ha; cbn; try rewrite truthy_false; auto);
            unfold distance, position;
            cbn [center parent move_and_emit set_parent moveCenter emit
                 x y fst snd];
            apply (displacement_bound _ _ (speed (options f))
                     (speed (options f)) _ _ _ Hu);
            [lra | lra | apply axis_within_change
             | apply axis_within_change]).
  all: rewrite (follow_motion_accelerated f elapsed tc a) by assumption.
  all: pose proof (next_velocity_bounded f elapsed tc a
                     (Hacc a eq_refl) He Hb) as [Hbx Hby].
  all: cbn [velocity set_velocity options] in Hbx, Hby.
  all: unfold distance, position.
  all: cbn [center parent move_and_emit set_parent set_velocity moveCenter
            emit x y fst snd].
  all: apply (displacement_bound _ _ _ _ _ _ _ Hu Hbx Hby);
    apply axis_within_change.
Qed.

Lemma displacement_at_most_speed_witness :
  let f := constructor (plain_viewport 0 0) (mkContainer 30 40) (eased 5 1) in
  distance (position (center (parent (update f 2))))
           (position (center (parent f)))
  <= speed (options f).
Proof.
  intros f; apply (displacement_at_most_speed f 2).
  - frame_unfold; lra.
  - intros a H; injection H as <-; lra.
  - lra.
  - frame_unfold; lra.
Defined.

(** ** The two components of the velocity *)

Lemma update_velocity_diagonal (f : Follow) (elapsed : R) :
  x (velocity f) = y (velocity f) ->
  x (velocity (update f elapsed)) = y (velocity (update f elapsed)).
Proof.
  intros H.
  destruct (update_velocity_cases f elapsed) as [-> | [tc [a [_ [_ ->]]]]];
    [exact H |].
  unfold next_velocity; destruct (gtb _ _); cbn [x y]; rewrite H; reflexivity.
Qed.

Lemma run_velocity_diagonal (ops : list Operation) :
  forall f, x (velocity f) = y (velocity f) ->
            x (velocity (run f ops)) = y (velocity (run f ops)).
Proof.
  induction ops as [| op rest IH]; intros f H; [exact H |].
  cbn [run]; apply IH.
  destruct op; try exact H.
  apply update_velocity_diagonal, H.
Qed.

(** X8: whatever the options, the viewport, the target and the operations
    since construction, the two components of the velocity are equal; the
    deceleration distance of lines 135 and 136 is therefore
    [velocity.x^2 / acceleration], twice the braking distance
    [v^2 / (2 * acceleration)] of one component. *)
Theorem velocity_components_equal
    (p : Viewport) (t : Container) (o : IFollowOptions)
    (ops : list Operation) :
  let f := run (constructor p t o) ops in
  x (velocity f) = y (velocity f) /\
  forall a, a <> 0 ->
    decelerationDistance f a = x (velocity f) ^ 2 / a /\
    decelerationDistance f a = 2 * (x (velocity f) ^ 2 / (2 * a)).
Proof.
  intros f.
  assert (H : x (velocity f) = y (velocity f))
    by (apply run_velocity_diagonal; reflexivity).
  split; [exact H |].
  intros a Ha; unfold decelerationDistance; rewrite <- H.
  split; field; exact Ha.
Qed.

(** ** Accelerating *)

Lemma accelerates_velocity (f : Follow) (elapsed : R) (a : R) :
  accelerates f ->
  acceleration (options f) = Some a ->
  velocity (update f elapsed)
  = mkPoint (Rmin (x (velocity f) + a * elapsed) (speed (options f)))
            (Rmin (y (velocity f) + a * elapsed) (speed (options f))).
Proof.
  intros [Hp [to [a' [Ht [Hd [Hs [Ha' [Ha0 Hgt]]]]]]]] Ha.
  rewrite Ha in Ha'; injection Ha' as <-.
  unfold update; rewrite Hp, Ht.
  rewrite (follow_motion_accelerated f elapsed _ a) by assumption.
  cbn [velocity move_and_emit set_parent set_velocity].
  unfold next_velocity; rewrite gtb_true by exact Hgt; reflexivity.
Qed.

Lemma Rmin_accumulates (A e s : R) :
  0 <= e -> Rmin (Rmin A s + e) s = Rmin (A + e) s.
Proof.
  intros He; unfold Rmin.
  destruct (Rle_dec A s);
    repeat match goal with
           | |- context [Rle_dec ?u ?v] => destruct (Rle_dec u v)
           end; lra.
Qed.

Lemma run_accelerating_velocity (a s : R) (ops : list Operation) :
  0 < a ->
  forall f T,
    speed (options f) = s ->
    acceleration (options f) = Some a ->
    velocity f = mkPoint (Rmin (a * T) s) (Rmin (a * T) s) ->
    always_accelerates f ops ->
    velocity (run f ops)
    = mkPoint (Rmin (a * (T + total_elapsed ops)) s)
              (Rmin (a * (T + total_elapsed ops)) s).
Proof.
  intros Ha; induction ops as [| op rest IH]; intros f T Hs Hacc Hv Hal.
  - cbn [run total_elapsed]; rewrite Rplus_0_r; exact Hv.
  - destruct Hal as [Hop Hrest]; cbn [run].
    assert (Hs' : speed (options (step f op)) = s)
      by (rewrite step_speed; exact Hs).
    assert (Hacc' : acceleration (options (step f op)) = Some a)
      by (rewrite step_acceleration; exact Hacc).
    destruct op as [e | pt | t | v | b]; cbn [total_elapsed];
      try (apply IH; assumption).
    destruct Hop as [Hop He].
    replace (T + (e + total_elapsed rest))
      with ((T + e) + total_elapsed rest) by ring.
    apply IH; try assumption.
    cbn [step]; rewrite (accelerates_velocity f e a Hop Hacc), Hv, Hs.
    cbn [x y].
    assert (0 <= a * e) by nra.
    rewrite Rmin_accumulates by assumption.
    replace (a * T + a * e) with (a * (T + e)) by ring; reflexivity.
Qed.

(** X9: from construction on, with [speed > 0] and [acceleration = a > 0],
    along frames that all take the accelerating branch, both components of
    the velocity are [min(a * t, speed)], where [t] is the elapsed time summed
    over the frames so far: the velocity grows linearly with the elapsed time
    and stays at [speed] from [t = speed / a] on. *)
Theorem accelerating_velocity_formula
    (p : Viewport) (t : Container) (o : IFollowOptions)
    (a : R) (ops : list Operation) :
  let f0 := constructor p t o in
  0 < speed (options f0) ->
  acceleration (options f0) = Some a ->
  0 < a ->
  always_accelerates f0 ops ->
  velocity (run f0 ops)
  = mkPoint (Rmin (a * total_elapsed ops) (speed (options f0)))
            (Rmin (a * total_elapsed ops) (speed (options f0))).
Proof.
  intros f0 Hs Hacc Ha Hal.
  rewrite (run_accelerating_velocity a (speed (options f0)) ops Ha f0 0
             eq_refl Hacc); [| | exact Hal].
  - rewrite Rplus_0_l; reflexivity.
  - change (velocity f0) with (mkPoint 0 0).
    rewrite Rmult_0_r, Rmin_left by lra; reflexivity.
Qed.

Lemma accelerating_velocity_formula_witness :
  let f0 := constructor (plain_viewport 0 0) (mkContainer 100 0) (eased 3 3) in
  velocity (run f0 [OpUpdate 1])
  = mkPoint (Rmin (3 * total_elapsed [OpUpdate 1]) (speed (options f0)))
            (Rmin (3 * total_elapsed [OpUpdate 1]) (speed (options f0))).
Proof.
  intros f0.
  apply (accelerating_velocity_formula
           (plain_viewport 0 0) (mkContainer 100 0) (eased 3 3)
           3 [OpUpdate 1]).
  - frame_unfold; lra.
  - reflexivity.
  - lra.
  - split; [| exact I].
    split; [apply first_frame_accelerates; lra | lra].
Defined.

(** X10: a plugin at rest (velocity [(0, 0)]) with a speed and an
    acceleration that are not zero takes the accelerating branch in every
    frame that acts: the deceleration distance is [0], below any distance
    left, so both components become [min(acceleration * elapsed, speed)]. *)
Theorem at_rest_accelerates (f : Follow) (elapsed a : R) :
  frame_acts f ->
  speed (options f) <> 0 ->
  acceleration (options f) = Some a ->
  a <> 0 ->
  velocity f = mkPoint 0 0 ->
  accelerates f /\
  velocity (update f elapsed)
  = mkPoint (Rmin (a * elapsed) (speed (options f)))
            (Rmin (a * elapsed) (speed (options f))).
Proof.
  intros [Hp [to [Ht Hoff]]] Hs Ha Ha0 Hv.
  apply off_follow_point in Hoff.
  assert (Hacc : accelerates f).
  { split; [exact Hp |].
    exists to, a; repeat split; try assumption.
    unfold decelerationDistance; rewrite Hv; cbn [x y].
    replace ((0 ^ 2 + 0 ^ 2) / (2 * a)) with 0 by (field; exact Ha0).
    apply hypot_pos, Hoff. }
  split; [exact Hacc |].
  rewrite (accelerates_velocity f elapsed a Hacc Ha), Hv; cbn [x y].
  rewrite Rplus_0_l; reflexivity.
Qed.

Lemma at_rest_accelerates_witness :
  let f := constructor (plain_viewport 0 0) (mkContainer 100 0) (eased 5 1) in
  velocity (update f 2)
  = mkPoint (Rmin (1 * 2) (speed (options f)))
            (Rmin (1 * 2) (speed (options f))).
Proof.
  intros f; refine (proj2 (at_rest_accelerates f 2 1 _ _ _ _ _)).
  - split; [reflexivity |].
    exists (100, 0); split.
    + frame_unfold; decide_conditions; reflexivity.
    + frame_unfold; intros H; injection H as H; lra.
  - frame_unfold; lra.
  - reflexivity.
  - lra.
  - reflexivity.
Defined.

(** X11: on the accelerated path, a frame that stores the velocity [(0, 0)]
    (no elapsed time from rest, or a braking frame that uses the velocity up)
    leaves the centre where it was and still sends the "moved" event. *)
Theorem stalled_frame_still_emits
    (f : Follow) (elapsed : R) (to : R * R) (a : R) :
  paused f = false ->
  effective_target f = Some to ->
  to <> follow_position f ->
  speed (options f) <> 0 ->
  acceleration (options f) = Some a ->
  a <> 0 ->
  next_velocity f elapsed (targetCenter f to) a = mkPoint 0 0 ->
  center (parent (update f elapsed)) = center (parent f) /\
  velocity (update f elapsed) = mkPoint 0 0 /\
  emitted (parent (update f elapsed)) = emitted (parent f) ++ [moved_follow].
Proof.
  intros Hp Ht Hoff Hs Ha Ha0 Hv.
  apply off_follow_point in Hoff.
  unfold update; rewrite Hp, Ht.
  rewrite (follow_motion_accelerated f elapsed _ a) by assumption.
  rewrite Hv.
  cbn [center velocity emitted parent move_and_emit set_parent set_velocity
       moveCenter emit x y].
  split; [| split; reflexivity].
  rewrite !Rmult_0_r, Rabs_R0.
  rewrite !gtb_false by apply Rabs_pos.
  destruct (center (parent f)) as [cx cy]; cbn [x y]; f_equal; lra.
Qed.

Lemma stalled_frame_still_emits_witness :
  let f := constructor (plain_viewport 0 0) (mkContainer 100 0) (eased 5 1) in
  center (parent (update f 0)) = center (parent f) /\
  velocity (update f 0) = mkPoint 0 0 /\
  emitted (parent (update f 0)) = emitted (parent f) ++ [moved_follow].
Proof.
  intros f; apply (stalled_frame_still_emits f 0 (100, 0) 1).
  - reflexivity.
  - frame_unfold; decide_conditions; reflexivity.
  - frame_unfold; intros H; injection H as H; lra.
  - frame_unfold; lra.
  - reflexivity.
  - lra.
  - frame_unfold.
    replace ((0 ^ 2 + 0 ^ 2) / (2 * 1)) with 0 by (field; lra).
    rewrite gtb_true
      by (apply hypot_pos; left; lra).
    replace (0 + 1 * 0) with 0 by lra.
    rewrite Rmin_left by lra; reflexivity.
Defined.

(** ** The radius, continued *)

(** The bearing and the distance give back the vector from the follow point
    to the target, also when the target sits on the follow point. *)
Lemma bearing_components (f : Follow) :
  cos (bearing f) * distance (target_position f) (follow_position f)
  = target_x (target f) - x (followPointWorld f) /\
  sin (bearing f) * distance (target_position f) (follow_position f)
  = target_y (target f) - y (followPointWorld f).
Proof.
  unfold distance, target_position, follow_position, bearing; cbn [fst snd].
  set (dx := target_x (target f) - x (followPointWorld f)).
  set (dy := target_y (target f) - y (followPointWorld f)).
  replace (dy ^ 2 + dx ^ 2) with (dx ^ 2 + dy ^ 2) by ring.
  destruct (Req_dec_T dx 0) as [HX | HX];
    [destruct (Req_dec_T dy 0) as [HY | HY] |].
  1: { rewrite HX, HY.
       replace (0 ^ 2 + 0 ^ 2) with 0 by ring.
       rewrite sqrt_0; lra. }
  all: assert (Hd : dx <> 0 \/ dy <> 0) by tauto.
  all: pose proof (hypot_pos dx dy Hd).
  all: rewrite MathFacts.cos_atan2, MathFacts.sin_atan2 by exact Hd.
  all: split; field; lra.
Qed.

Lemma clamp_vector (f : Follow) (r : R) :
  radius (options f) = Some r ->
  r <> 0 ->
  distance (target_position f) (follow_position f) > r ->
  let d := distance (target_position f) (follow_position f) in
  exists to,
    effective_target f = Some to /\
    fst to - x (followPointWorld f) = cos (bearing f) * (d - r) /\
    snd to - y (followPointWorld f) = sin (bearing f) * (d - r) /\
    distance to (follow_position f) = d - r.
Proof.
  intros Hr Hr0 Hd d.
  destruct (bearing_components f) as [Hc Hs]; fold d in Hc, Hs.
  assert (Hdr : r < d) by exact Hd.
  eexists; split.
  { unfold effective_target; rewrite Hr.
    cbv beta iota zeta delta [truthy_opt].
    rewrite truthy_true by exact Hr0.
    unfold distance, target_position, follow_position in Hd.
    cbn [fst snd] in Hd.
    rewrite gtb_true by exact Hd.
    fold (bearing f); reflexivity. }
  clearbody d; cbn [fst snd].
  assert (HX : target_x (target f) - cos (bearing f) * r
               - x (followPointWorld f) = cos (bearing f) * (d - r)) by lra.
  assert (HY : target_y (target f) - sin (bearing f) * r
               - y (followPointWorld f) = sin (bearing f) * (d - r)) by lra.
  split; [exact HX |]; split; [exact HY |].
  unfold distance, follow_position; cbn [fst snd].
  rewrite HX, HY.
  apply sqrt_scaled_unit; [apply cos_sin_unit | lra].
Qed.

Lemma clamped_frame_acts (f : Follow) (r : R) :
  paused f = false ->
  radius (options f) = Some r ->
  r <> 0 ->
  distance (target_position f) (follow_position f) > r ->
  frame_acts f.
Proof.
  intros Hp Hr Hr0 Hd.
  destruct (clamp_vector f r Hr Hr0 Hd) as [to [Ht [_ [_ Hdist]]]].
  split; [exact Hp |].
  exists to; split; [exact Ht |].
  intros E; rewrite E, distance_same in Hdist; lra.
Qed.

(** X12: with a radius [r > 0], a frame that is not paused and finds the
    target at a distance [d > r] from the follow point always acts (one
    "moved" event); with [speed = 0] it moves the centre by exactly [d - r],
    along the bearing of the target. *)
Theorem outside_radius_closes_the_excess (f : Follow) (elapsed r : R) :
  paused f = false ->
  radius (options f) = Some r ->
  0 < r ->
  distance (target_position f) (follow_position f) > r ->
  let d := distance (target_position f) (follow_position f) in
  let c' := center (parent (update f elapsed)) in
  emitted (parent (update f elapsed)) = emitted (parent f) ++ [moved_follow] /\
  (speed (options f) = 0 ->
   c' = mkPoint (x (center (parent f)) + cos (bearing f) * (d - r))
                (y (center (parent f)) + sin (bearing f) * (d - r)) /\
   distance (position c') (position (center (parent f))) = d - r).
Proof.
  intros Hp Hr Hpos Hd d c'.
  assert (Hr0 : r <> 0) by lra.
  split.
  - apply acting_frame_emits, (clamped_frame_acts f r); assumption.
  - intros Hs.
    destruct (clamp_vector f r Hr Hr0 Hd) as [to [Ht [HX [HY _]]]].
    fold d in HX, HY.
    assert (Hdr : r < d) by exact Hd.
    assert (Hc : c' = mkPoint
                        (x (center (parent f)) + cos (bearing f) * (d - r))
                        (y (center (parent f)) + sin (bearing f) * (d - r))).
    { unfold c'.
      rewrite (teleport_displacement f elapsed to Hp Ht Hs).
      rewrite HX, HY; reflexivity. }
    split; [exact Hc |].
    rewrite Hc; clearbody d; unfold distance, position; cbn [fst snd x y].
    replace (y (center (parent f)) + sin (bearing f) * (d - r)
             - y (center (parent f)))
      with (sin (bearing f) * (d - r)) by ring.
    replace (x (center (parent f)) + cos (bearing f) * (d - r)
             - x (center (parent f)))
      with (cos (bearing f) * (d - r)) by ring.
    apply sqrt_scaled_unit; [apply cos_sin_unit | lra].
Qed.

Lemma outside_radius_closes_the_excess_witness :
  let f := constructor (plain_viewport 0 0) (mkContainer 150 0)
             (with_radius 50) in
  emitted (parent (update f 1)) = emitted (parent f) ++ [moved_follow].
Proof.
  intros f.
  refine (proj1 (outside_radius_closes_the_excess f 1 50 _ _ _ _)).
  - reflexivity.
  - reflexivity.
  - lra.
  - frame_unfold; due_east; lra.
Defined.

(** X13: a negative radius is taken as given: the radius test never returns
    (no distance is at most a negative number), the effective target lies
    beyond the target, at [d - r = d + |r|] from the follow point, and every
    frame that is not paused acts, also when the target sits exactly on the
    follow point. *)
Theorem negative_radius_never_rests (f : Follow) (elapsed r : R) :
  paused f = false ->
  radius (options f) = Some r ->
  r < 0 ->
  let d := distance (target_position f) (follow_position f) in
  (exists to,
     effective_target f = Some to /\
     distance to (follow_position f) = d - r) /\
  emitted (parent (update f elapsed)) = emitted (parent f) ++ [moved_follow].
Proof.
  intros Hp Hr Hneg d.
  assert (Hr0 : r <> 0) by lra.
  assert (Hd : distance (target_position f) (follow_position f) > r).
  { unfold distance.
    pose proof (sqrt_pos ((snd (target_position f) - snd (follow_position f)) ^ 2
                          + (fst (target_position f)
                             - fst (follow_position f)) ^ 2)).
    lra. }
  split.
  - destruct (clamp_vector f r Hr Hr0 Hd) as [to [Ht [_ [_ Hdist]]]].
    exists to; split; assumption.
  - apply acting_frame_emits, (clamped_frame_acts f r); assumption.
Qed.

Lemma negative_radius_never_rests_witness :
  let f := constructor (plain_viewport 0 0) (mkContainer 0 0)
             (with_radius (-50)) in
  emitted (parent (update f 1)) = emitted (parent f) ++ [moved_follow].
Proof.
  intros f.
  refine (proj2 (negative_radius_never_rests f 1 (-50) _ _ _)).
  - reflexivity.
  - reflexivity.
  - lra.
Defined.

(** ** The accelerated path, continued *)

Lemma accelerated_frame (f : Follow) (elapsed : R) (to : R * R) (a : R) :
  paused f = false ->
  effective_target f = Some to ->
  speed (options f) <> 0 ->
  acceleration (options f) = Some a ->
  a <> 0 ->
  to <> follow_position f ->
  let tc := targetCenter f to in
  let v := next_velocity f elapsed tc a in
  0 < remaining f tc /\
  velocity (update f elapsed) = v /\
  exists chX chY,
    chX = deltaX f tc * (x v / remaining f tc) /\
    chY = deltaY f tc * (y v / remaining f tc) /\
    center (parent (update f elapsed))
    = mkPoint
        (if gtb (Rabs chX) (Rabs (deltaX f tc)) then fst tc
         else x (center (parent f)) + chX)
        (if gtb (Rabs chY) (Rabs (deltaY f tc)) then snd tc
         else y (center (parent f)) + chY).
Proof.
  intros Hp Ht Hs Ha Ha0 Hoff tc v.
  apply off_follow_point in Hoff; fold tc in Hoff.
  pose proof (hypot_pos _ _ Hoff) as Hpos.
  split; [exact Hpos |].
  unfold update; rewrite Hp, Ht; fold tc.
  rewrite (follow_motion_accelerated f elapsed tc a) by assumption.
  fold v; split; [reflexivity |].
  do 2 eexists; split; [| split]; [| | reflexivity].
  - rewrite MathFacts.cos_atan2 by exact Hoff.
    unfold remaining; field; lra.
  - rewrite MathFacts.sin_atan2 by exact Hoff.
    unfold remaining; field; lra.
Qed.

Lemma remaining_pos_off (f : Follow) (to : R * R) :
  0 < remaining f (targetCenter f to) -> to <> follow_position f.
Proof.
  intros H; apply off_follow_point.
  destruct (Req_dec_T (deltaX f (targetCenter f to)) 0) as [HX | HX];
    [| now left].
  destruct (Req_dec_T (deltaY f (targetCenter f to)) 0) as [HY | HY];
    [| now right].
  exfalso; unfold remaining in H; rewrite HX, HY in H.
  replace (0 ^ 2 + 0 ^ 2) with 0 in H by ring.
  rewrite sqrt_0 in H; lra.
Qed.

(** X14: on the accelerated path, a frame that stores a velocity whose two
    components are both at least the (positive) distance left puts the centre
    exactly on the target centre. *)
Theorem accelerated_arrives
    (f : Follow) (elapsed : R) (to : R * R) (a : R) :
  paused f = false ->
  effective_target f = Some to ->
  speed (options f) <> 0 ->
  acceleration (options f) = Some a ->
  a <> 0 ->
  0 < remaining f (targetCenter f to) ->
  remaining f (targetCenter f to) <= x (velocity (update f elapsed)) ->
  remaining f (targetCenter f to) <= y (velocity (update f elapsed)) ->
  center (parent (update f elapsed))
  = mkPoint (fst (targetCenter f to)) (snd (targetCenter f to)).
Proof.
  intros Hp Ht Hs Ha Ha0 Hpos Hx Hy.
  pose proof (remaining_pos_off f to Hpos) as Hoff.
  destruct (accelerated_frame f elapsed to a Hp Ht Hs Ha Ha0 Hoff)
    as [_ [Hv [chX [chY [EX [EY ->]]]]]].
  rewrite Hv in Hx, Hy.
  set (d := remaining f (targetCenter f to)) in *.
  f_equal.
  - apply (axis_arrives _ _ chX _ EX).
    apply (Rmult_le_reg_r d); [exact Hpos | field_simplify; lra].
  - apply (axis_arrives _ _ chY _ EY).
    apply (Rmult_le_reg_r d); [exact Hpos | field_simplify; lra].
Qed.

Lemma accelerated_arrives_witness :
  let f := constructor (plain_viewport 0 0) (mkContainer 1 0) (eased 5 3) in
  center (parent (update f 1))
  = mkPoint (fst (targetCenter f (1, 0))) (snd (targetCenter f (1, 0))).
Proof.
  intros f.
  assert (Hacc : accelerates f) by (apply first_frame_accelerates; lra).
  assert (Hv : velocity (update f 1) = mkPoint 3 3).
  { rewrite (accelerates_velocity f 1 3 Hacc eq_refl).
    change (velocity f) with (mkPoint 0 0).
    change (speed (options f)) with 5; cbn [x y].
    replace (0 + 3 * 1) with 3 by lra.
    rewrite Rmin_left by lra; reflexivity. }
  assert (Hr : remaining f (targetCenter f (1, 0)) = 1)
    by (unfold remaining; frame_unfold; due_east; lra).
  apply (accelerated_arrives f 1 (1, 0) 3).
  - reflexivity.
  - frame_unfold; decide_conditions; reflexivity.
  - frame_unfold; lra.
  - reflexivity.
  - lra.
  - rewrite Hr; lra.
  - rewrite Hr, Hv; cbn [x]; lra.
  - rewrite Hr, Hv; cbn [y]; lra.
Defined.

Lemma straight_step (cx cy tx ty s d : R) :
  0 < d ->
  (tx - cx) ^ 2 + (ty - cy) ^ 2 = d ^ 2 ->
  0 <= s <= d ->
  sqrt ((cy + (ty - cy) * (s / d) - cy) ^ 2
        + (cx + (tx - cx) * (s / d) - cx) ^ 2) = s /\
  sqrt ((ty - (cy + (ty - cy) * (s / d))) ^ 2
        + (tx - (cx + (tx - cx) * (s / d))) ^ 2) = d - s.
Proof.
  intros Hd Hd2 Hs; split.
  - replace ((cy + (ty - cy) * (s / d) - cy) ^ 2
             + (cx + (tx - cx) * (s / d) - cx) ^ 2)
      with ((s / d) ^ 2 * ((tx - cx) ^ 2 + (ty - cy) ^ 2)) by ring.
    rewrite Hd2.
    replace ((s / d) ^ 2 * d ^ 2) with (s ^ 2) by (field; lra).
    apply sqrt_pow2; lra.
  - replace ((ty - (cy + (ty - cy) * (s / d))) ^ 2
             + (tx - (cx + (tx - cx) * (s / d))) ^ 2)
      with ((1 - s / d) ^ 2 * ((tx - cx) ^ 2 + (ty - cy) ^ 2)) by ring.
    rewrite Hd2.
    replace ((1 - s / d) ^ 2 * d ^ 2) with ((d - s) ^ 2) by (field; lra).
    apply sqrt_pow2; lra.
Qed.

(** X15: on the accelerated path, from a velocity with equal components, a
    frame that stores a velocity [v] with [0 <= v] below the distance [d]
    left moves the centre by exactly [v] along the straight line to the
    target centre and leaves [d - v] to go. *)
Theorem accelerated_advances
    (f : Follow) (elapsed : R) (to : R * R) (a : R) :
  paused f = false ->
  effective_target f = Some to ->
  speed (options f) <> 0 ->
  acceleration (options f) = Some a ->
  a <> 0 ->
  x (velocity f) = y (velocity f) ->
  0 <= x (velocity (update f elapsed)) < remaining f (targetCenter f to) ->
  let tc := targetCenter f to in
  let v := x (velocity (update f elapsed)) in
  let c' := center (parent (update f elapsed)) in
  c' = mkPoint (x (center (parent f)) + deltaX f tc * (v / remaining f tc))
               (y (center (parent f)) + deltaY f tc * (v / remaining f tc)) /\
  distance (position c') (position (center (parent f))) = v /\
  distance tc (position c') = remaining f tc - v.
Proof.
  intros Hp Ht Hs Ha Ha0 Hdiag Hv tc v c'.
  assert (Hpos : 0 < remaining f tc) by (unfold tc; lra).
  pose proof (remaining_pos_off f to Hpos) as Hoff.
  pose proof (update_velocity_diagonal f elapsed Hdiag) as Hxy.
  destruct (accelerated_frame f elapsed to a Hp Ht Hs Ha Ha0 Hoff)
    as [_ [Hnv [chX [chY [EX [EY Hc]]]]]].
  cbv zeta in EX, EY, Hnv.
  rewrite <- Hnv in EX, EY; rewrite <- Hxy in EY.
  fold tc in EX, EY, Hc; fold c' in Hc; fold v in EX, EY.
  assert (Hv' : 0 <= v < remaining f tc) by exact Hv.
  clear Hv Hnv Hxy; clearbody v.
  set (d := remaining f tc) in *.
  assert (Hk : 0 <= v / d <= 1).
  { split.
    - apply Rmult_le_pos; [lra | left; apply Rinv_0_lt_compat, Hpos].
    - apply (Rmult_le_reg_r d); [exact Hpos |].
      unfold Rdiv; rewrite Rmult_assoc, Rinv_l by lra; lra. }
  assert (Hd2 : (fst tc - x (center (parent f))) ^ 2
                + (snd tc - y (center (parent f))) ^ 2 = d ^ 2).
  { unfold d, remaining, deltaX, deltaY.
    rewrite pow2_sqrt; [reflexivity |].
    apply Rplus_le_le_0_compat; apply pow2_ge_0. }
  change (deltaX f tc) with (fst tc - x (center (parent f))) in *.
  change (deltaY f tc) with (snd tc - y (center (parent f))) in *.
  rewrite (axis_advances _ _ chX (v / d)) in Hc by assumption.
  rewrite (axis_advances _ _ chY (v / d)) in Hc by assumption.
  rewrite EX, EY in Hc.
  split; [exact Hc |].
  rewrite Hc; unfold distance, position; cbn [fst snd x y].
  apply straight_step; [exact Hpos | exact Hd2 | lra].
Qed.

Lemma accelerated_advances_witness :
  let f := constructor (plain_viewport 0 0) (mkContainer 100 0) (eased 5 1) in
  distance (position (center (parent (update f 2))))
           (position (center (parent f)))
  = x (velocity (update f 2)).
Proof.
  intros f.
  assert (Hacc : accelerates f) by (apply first_frame_accelerates; lra).
  assert (Hv : velocity (update f 2) = mkPoint 2 2).
  { rewrite (accelerates_velocity f 2 1 Hacc eq_refl).
    change (velocity f) with (mkPoint 0 0).
    change (speed (options f)) with 5; cbn [x y].
    replace (0 + 1 * 2) with 2 by lra.
    rewrite Rmin_left by lra; reflexivity. }
  assert (Hr : remaining f (targetCenter f (100, 0)) = 100)
    by (unfold remaining; frame_unfold; due_east; lra).
  refine (proj1 (proj2 (accelerated_advances f 2 (100, 0) 1 _ _ _ _ _ _ _))).
  - reflexivity.
  - frame_unfold; decide_conditions; reflexivity.
  - frame_unfold; lra.
  - reflexivity.
  - lra.
  - reflexivity.
  - rewrite Hr, Hv; cbn [x]; lra.
Defined.

(** ** Runs, continued *)

Lemma step_radius (f : Follow) (op : Operation) :
  radius (options (step f op)) = radius (options f).
Proof.
  destruct op; cbn; try reflexivity; rewrite update_options; reflexivity.
Qed.

Lemma step_follow_point (f : Follow) (op : Operation) :
  getFollowPoint (step f op)
  = match op with
    | OpSetFollowPoint point => point
    | _ => getFollowPoint f
    end.
Proof.
  unfold getFollowPoint.
  destruct op; cbn; try reflexivity; rewrite update_options; reflexivity.
Qed.

(** X16: over any run, no operation changes the speed, the acceleration or
    the radius the plugin was built with, and the follow point it holds at
    the end is the argument of the last [setFollowPoint] of the run, or the
    one it held at the start when the run has none: frames never touch it. *)
Theorem run_configuration (ops : list Operation) (f : Follow) :
  speed (options (run f ops)) = speed (options f) /\
  acceleration (options (run f ops)) = acceleration (options f) /\
  radius (options (run f ops)) = radius (options f) /\
  getFollowPoint (run f ops) = last_follow_point (getFollowPoint f) ops.
Proof.
  split; [apply run_speed |]; split; [apply run_acceleration |].
  revert f; induction ops as [| op rest IH]; intros f;
    [split; reflexivity |].
  cbn [run]; destruct (IH (step f op)) as [Hr Hp].
  rewrite Hr, Hp, step_radius, step_follow_point.
  split; [reflexivity |].
  destruct op; reflexivity.
Qed.

Lemma update_event_log (f : Follow) (elapsed : R) :
  exists sent,
    emitted (parent (update f elapsed)) = (emitted (parent f) ++ sent)%list /\
    Forall (eq moved_follow) sent /\ (List.length sent <= 1)%nat.
Proof.
  destruct (update_acts_or_not f elapsed) as [-> | ->].
  - exists []; rewrite app_nil_r; repeat split; [constructor | cbn; lia].
  - exists [moved_follow]; repeat split; [repeat constructor | cbn; lia].
Qed.

(** X17: over a run in which the host does not replace the viewport, the
    events sent before the run are kept, in order, at the head of the list;
    the run adds only "moved" events of type "follow", at most one for each
    of its frames. *)
Theorem run_event_log (ops : list Operation) (f : Follow) :
  Forall keeps_viewport ops ->
  exists sent,
    emitted (parent (run f ops)) = (emitted (parent f) ++ sent)%list /\
    Forall (eq moved_follow) sent /\
    (List.length sent <= frames ops)%nat.
Proof.
  revert f; induction ops as [| op rest IH]; intros f Hk.
  - exists []; rewrite app_nil_r; repeat split; [constructor | cbn; lia].
  - inversion Hk as [| ? ? Hop Hrest]; subst.
    destruct (IH (step f op) Hrest) as [sent [He [Hall Hlen]]].
    cbn [run]; rewrite He.
    destruct op as [e | pt | t | v | b]; cbn [frames];
      try (exists sent; repeat split; [assumption | lia]).
    + destruct (update_event_log f e) as [first [Hf [Hfa Hfl]]].
      exists (first ++ sent)%list; cbn [step]; rewrite Hf, app_assoc.
      repeat split; [apply Forall_app; split; assumption |].
      rewrite length_app; lia.
    + destruct Hop.
Qed.

Lemma run_event_log_witness :
  let f := constructor (plain_viewport 0 0) (mkContainer 100 0)
             (constant_speed 5) in
  let ops := [OpUpdate 1; OpPaused true; OpUpdate 1] in
  exists sent,
    emitted (parent (run f ops)) = (emitted (parent f) ++ sent)%list /\
    Forall (eq moved_follow) sent /\
    (List.length sent <= frames ops)%nat.
Proof.
  intros f ops; apply (run_event_log ops f).
  repeat constructor.
Defined.

(** ** Two frames in a row

    The viewport moves as a whole, so after a teleport the follow point is on
    the target: a second frame finds nothing to do and the centre stays at
    [(100, 0)]. *)
Example teleport_settles :
  let f := constructor (plain_viewport 0 0) (mkContainer 100 0) no_options in
  center (parent (run f [OpUpdate 1; OpUpdate 1])) = mkPoint 100 0 /\
  run f [OpUpdate 1; OpUpdate 1] = run f [OpUpdate 1].
Proof.
  intros f.
  assert (H1 : update f 1 = move_and_emit f (100 - (0 - 0)) (0 - (0 - 0))).
  { unfold update; cbn [paused f constructor].
    assert (Ht : effective_target f = Some (100, 0))
      by (frame_unfold; decide_conditions; reflexivity).
    rewrite Ht, follow_motion_teleport;
      [reflexivity | left; frame_unfold; lra | reflexivity]. }
  assert (H2 : update (update f 1) 1 = update f 1).
  { rewrite H1; unfold update at 1; cbn [paused move_and_emit set_parent].
    assert (Ht : effective_target
                   (move_and_emit f (100 - (0 - 0)) (0 - (0 - 0)))
                 = Some (100, 0))
      by (frame_unfold; decide_conditions; reflexivity).
    rewrite Ht; apply follow_motion_still; frame_unfold; lra. }
  cbn [run step]; rewrite H2, H1; split; [| reflexivity].
  frame_unfold; f_equal; lra.
Qed.
